(** * A Brainfuck interpreter in two encodings

    Shallow embedding of the interpreter of [01_simple.py] (one instruction
    per operator character) and of [02_batch.py] (run-length encoded
    instructions), followed by the properties of the jump table, of the
    tape and of the execution loop.

    Conventions of the embedding.
    - The program text is a [list ascii]; a Python [int] is a [Z], except
      for instruction indices (they come from [enumerate] and [len]),
      which are [nat].
    - The tape is the numpy array [np.zeros(30_000, dtype=np.uint8)]: a
      [list Z] of cells, read and written through [getitem]/[setitem],
      which raise [IndexError] outside the array.  Arithmetic between two
      [np.uint8] values wraps modulo 256.  A Python [int] that meets a
      [np.uint8] is first converted to [np.uint8], and the conversion
      raises [OverflowError] outside 0..255 (numpy 2): this is
      [np.uint8(ord(c))], and also the operand [count] of
      [tape[ptr] += count].
    - [input()] takes the next line of the input source; a line is the list
      of its characters, each one a code point [char], of any size.
    - [print] appends to one output sink; that sink receives both the
      characters written by [.] and the debug lines.  A debug line is kept
      as the record of the four values it formats.
    - Exceptions are values of [exn]; the loop needs fuel, and running out
      of it is the outcome [OutOfFuel], which is not a behaviour of the
      program.
    - [run] is embedded from its first line to the end of the [while]
      loop.  The empty [print()] that follows the loop when the variable
      SHELL names zsh is the terminal's concern and is left out, and so are
      [main], the argument parser and the timing harness. *)

From Stdlib Require Import ZArith Ascii String List Lia.
From stdpp Require Import base option list gmap.
Import ListNotations.

Local Open Scope Z_scope.

(** ** Python values shared by the two files *)

Definition str (s : string) : list ascii := list_ascii_of_string s.

(** [c in "+-<>.,[]"] *)
Definition is_operator (c : ascii) : bool :=
  existsb (Ascii.eqb c) (str "+-<>.,[]").

Inductive exn : Type :=
| UnmatchedCloseBracket (i : nat)   (* SyntaxError: Unmatched ] at position i *)
| UnmatchedOpenBracket (i : nat)    (* SyntaxError: Unmatched [ at position i *)
| EOFError                          (* input() at the end of the input *)
| IndexError                        (* s[0] on an empty line, or an index outside an array *)
| KeyError (k : nat)                (* jump_table[k] for an absent key *)
| OverflowError                     (* a Python int outside 0..255 made a np.uint8 *)
| RuntimeError (cmd : ascii).       (* Invalid instruction: cmd *)

Inductive out_item : Type :=
| Chr (code : Z)
| Trace (ip : nat) (cmd : ascii) (ptr : Z) (cell : Z).

Definition tape_length : Z := 30000.

Definition uint8 (z : Z) : Z := z mod 256.

(** [np.zeros(30_000, dtype=np.uint8)] *)
Definition zeros : list Z := replicate (Z.to_nat tape_length) 0.

(** [t[p]]: a negative index counts from the end of the array. *)
Definition getitem (t : list Z) (p : Z) : option Z :=
  if 0 <=? p then t !! Z.to_nat p
  else if 0 <=? Z.of_nat (length t) + p
       then t !! Z.to_nat (Z.of_nat (length t) + p)
       else None.

(** [t[p] = v] *)
Definition setitem (t : list Z) (p : Z) (v : Z) : option (list Z) :=
  let i := if 0 <=? p then Z.to_nat p
           else Z.to_nat (Z.of_nat (length t) + p) in
  if (0 <=? p) || (0 <=? Z.of_nat (length t) + p) then
    match t !! i with
    | Some _ => Some (<[i := v]> t)
    | None => None
    end
  else None.

(** A character of an input line, by its code point, which is what [ord]
    returns; the code point is not bounded by 255. *)
Definition char : Type := N.

(** An ASCII character is the character of the same code. *)
Definition char_of_ascii (c : ascii) : char := N_of_ascii c.

Coercion char_of_ascii : ascii >-> char.

(** An input line written as a string literal. *)
Definition line (s : string) : list char := map char_of_ascii (str s).

Record state : Type := State {
  ip : nat;
  ptr : Z;
  tape : list Z;
  stdin : list (list char);
  stdout : list out_item
}.

Definition initial (input : list (list char)) : state :=
  {| ip := 0; ptr := 0; tape := zeros; stdin := input; stdout := [] |}.

Inductive outcome : Type :=
| Finished
| Raised (e : exn)
| OutOfFuel.

(** ** Statements that read and write the interpreter state

    A statement either returns a value or raises, and leaves a state. *)

Definition M (A : Type) : Type := state -> (exn + A) * state.

Definition ret {A : Type} (a : A) : M A := fun s => (inr a, s).

Definition raise {A : Type} (e : exn) : M A := fun s => (inl e, s).

Definition bind {A B : Type} (m : M A) (k : A -> M B) : M B :=
  fun s =>
    match m s with
    | (inl e, s') => (inl e, s')
    | (inr a, s') => k a s'
    end.

Notation "'let!' x ':=' m 'in' k" := (bind m (fun x => k))
  (at level 10, x name, m at level 100, k at level 200).
Notation "m ;; k" := (bind m (fun _ => k))
  (at level 100, k at level 200, right associativity).

Definition get_ip : M nat := fun s => (inr (ip s), s).
Definition get_ptr : M Z := fun s => (inr (ptr s), s).

Definition set_ip (i : nat) : M unit := fun s =>
  (inr tt, {| ip := i; ptr := ptr s; tape := tape s;
              stdin := stdin s; stdout := stdout s |}).

Definition set_ptr (p : Z) : M unit := fun s =>
  (inr tt, {| ip := ip s; ptr := p; tape := tape s;
              stdin := stdin s; stdout := stdout s |}).

(** [len(tape)], [tape.size] *)
Definition tape_size : M Z := fun s => (inr (Z.of_nat (length (tape s))), s).

(** [tape[ptr]] *)
Definition get_cell : M Z := fun s =>
  match getitem (tape s) (ptr s) with
  | Some v => (inr v, s)
  | None => (inl IndexError, s)
  end.

(** [tape[ptr] = v] *)
Definition set_cell (v : Z) : M unit := fun s =>
  match setitem (tape s) (ptr s) v with
  | Some t => (inr tt, {| ip := ip s; ptr := ptr s; tape := t;
                          stdin := stdin s; stdout := stdout s |})
  | None => (inl IndexError, s)
  end.

(** [input()] *)
Definition input : M (list char) := fun s =>
  match stdin s with
  | [] => (inl EOFError, s)
  | line :: rest =>
      (inr line, {| ip := ip s; ptr := ptr s; tape := tape s;
                    stdin := rest; stdout := stdout s |})
  end.

(** [line[0]] *)
Definition first_char (line : list char) : M char :=
  match line with
  | [] => raise IndexError
  | c :: _ => ret c
  end.

Definition ord (c : char) : Z := Z.of_N c.

Arguments ord c%_char.

(** [np.uint8(z)] of a Python [int]; numpy makes the same conversion of the
    Python [int] operand of an operation with a [np.uint8]. *)
Definition np_uint8 (z : Z) : M Z :=
  if (0 <=? z) && (z <? 256) then ret z else raise OverflowError.

(** [print(..., end='')] of a string given by its character codes, and
    [print] of a debug line. *)
Definition print (items : list out_item) : M unit := fun s =>
  (inr tt, {| ip := ip s; ptr := ptr s; tape := tape s;
              stdin := stdin s; stdout := stdout s ++ items |}).

(** [jump_table[i]] *)
Definition jump (jump_table : gmap nat nat) (i : nat) : M nat :=
  match jump_table !! i with
  | Some j => ret j
  | None => raise (KeyError i)
  end.

(** ** [01_simple.py] *)

Module Simple.

Definition parse_code (raw : list ascii) : list ascii :=
  List.filter is_operator raw.

(** The [for] loop of [build_jump_table]; [stack] has its top first. *)
Fixpoint scan (code : list ascii) (i : nat) (table : gmap nat nat)
    (stack : list nat) : exn + (gmap nat nat * list nat) :=
  match code with
  | [] => inr (table, stack)
  | c :: rest =>
      if (c =? "[")%char then scan rest (S i) table (i :: stack)
      else if (c =? "]")%char then
        match stack with
        | [] => inl (UnmatchedCloseBracket i)
        | open_idx :: stack' =>
            scan rest (S i) (<[i := open_idx]> (<[open_idx := i]> table)) stack'
        end
      else scan rest (S i) table stack
  end.

Definition build_jump_table (code : list ascii) : exn + gmap nat nat :=
  match scan code 0%nat ∅ [] with
  | inl e => inl e
  | inr (table, []) => inr table
  | inr (_, top :: _) => inl (UnmatchedOpenBracket top)
  end.

Section Loop.
Variable code : list ascii.
Variable jump_table : gmap nat nat.
Variable debug : bool.

(** The [match cmd] statement; the result tells whether [continue] was
    executed. *)
Definition dispatch (cmd : ascii) : M bool :=
  if (cmd =? ">")%char then
    let! p := get_ptr in let! n := tape_size in set_ptr ((p + 1) mod n) ;; ret false
  else if (cmd =? "<")%char then
    let! p := get_ptr in let! n := tape_size in set_ptr ((p - 1) mod n) ;; ret false
  else if (cmd =? "+")%char then
    let! v := get_cell in set_cell (uint8 (v + 1)) ;; ret false
  else if (cmd =? "-")%char then
    let! v := get_cell in set_cell (uint8 (v - 1)) ;; ret false
  else if (cmd =? ",")%char then
    let! line := input in let! c := first_char line in
    let! v := np_uint8 (ord c) in set_cell v ;; ret false
  else if (cmd =? ".")%char then
    let! v := get_cell in print [Chr v] ;; ret false
  else if (cmd =? "[")%char then
    let! v := get_cell in
    if v =? 0 then let! i := get_ip in let! j := jump jump_table i in set_ip j ;; ret true
    else ret false
  else if (cmd =? "]")%char then
    let! v := get_cell in
    if v =? 0 then ret false
    else let! i := get_ip in let! j := jump jump_table i in set_ip j ;; ret true
  else ret false.

(** One iteration of the [while] loop. *)
Definition body : M unit :=
  let! i := get_ip in
  match code !! i with
  | None => raise IndexError
  | Some cmd =>
      let! continue := dispatch cmd in
      if continue : bool then ret tt
      else
        (if debug then
           let! i := get_ip in let! p := get_ptr in let! v := get_cell in
           print [Trace i cmd p v]
         else ret tt) ;;
        let! i := get_ip in set_ip (S i)
  end.

Fixpoint loop (fuel : nat) (s : state) : outcome * state :=
  if (ip s <? length code)%nat then
    match fuel with
    | O => (OutOfFuel, s)
    | S fuel' =>
        match body s with
        | (inl e, s') => (Raised e, s')
        | (inr _, s') => loop fuel' s'
        end
    end
  else (Finished, s).
End Loop.

Definition run (debug : bool) (code : list ascii) (lines : list (list char))
    (fuel : nat) : outcome * state :=
  let s := initial lines in
  match build_jump_table code with
  | inl e => (Raised e, s)
  | inr jump_table => loop code jump_table debug fuel s
  end.

End Simple.

(** ** [02_batch.py] *)

Module Batch.

(** The [for] loop of [parse_code]. *)
Fixpoint collapse (raw : list ascii) (ops : list (ascii * Z))
    (last : option ascii) (count : Z)
  : list (ascii * Z) * option ascii * Z :=
  match raw with
  | [] => (ops, last, count)
  | c :: rest =>
      if negb (is_operator c) then collapse rest ops last count
      else if (match last with Some l => (c =? l)%char | None => false end)
      then collapse rest ops last (count + 1)
      else
        collapse rest
          (match last with Some l => ops ++ [(l, count)] | None => ops end)
          (Some c) 1
  end.

Definition parse_code (raw : list ascii) : list (ascii * Z) :=
  match collapse raw [] None 0 with
  | (ops, Some l, count) => ops ++ [(l, count)]
  | (ops, None, _) => ops
  end.

Fixpoint scan (code : list (ascii * Z)) (i : nat) (table : gmap nat nat)
    (stack : list nat) : exn + (gmap nat nat * list nat) :=
  match code with
  | [] => inr (table, stack)
  | (c, _) :: rest =>
      if (c =? "[")%char then scan rest (S i) table (i :: stack)
      else if (c =? "]")%char then
        match stack with
        | [] => inl (UnmatchedCloseBracket i)
        | open_idx :: stack' =>
            scan rest (S i) (<[i := open_idx]> (<[open_idx := i]> table)) stack'
        end
      else scan rest (S i) table stack
  end.

Definition build_jump_table (code : list (ascii * Z)) : exn + gmap nat nat :=
  match scan code 0%nat ∅ [] with
  | inl e => inl e
  | inr (table, []) => inr table
  | inr (_, top :: _) => inl (UnmatchedOpenBracket top)
  end.

Section Loop.
Variable ops : list (ascii * Z).
Variable jump_table : gmap nat nat.
Variable debug : bool.

Definition dispatch (cmd : ascii) (count : Z) : M bool :=
  if (cmd =? ">")%char then
    let! p := get_ptr in let! n := tape_size in set_ptr ((p + count) mod n) ;; ret false
  else if (cmd =? "<")%char then
    let! p := get_ptr in let! n := tape_size in set_ptr ((p - count) mod n) ;; ret false
  else if (cmd =? "+")%char then
    let! v := get_cell in let! n := np_uint8 count in
    set_cell (uint8 (v + n)) ;; ret false
  else if (cmd =? "-")%char then
    let! v := get_cell in let! n := np_uint8 count in
    set_cell (uint8 (v - n)) ;; ret false
  else if (cmd =? ",")%char then
    let! line := input in let! c := first_char line in
    let! v := np_uint8 (ord c) in set_cell v ;; ret false
  else if (cmd =? ".")%char then
    let! v := get_cell in print (replicate (Z.to_nat count) (Chr v)) ;; ret false
  else if (cmd =? "[")%char then
    let! v := get_cell in
    if v =? 0 then let! i := get_ip in let! j := jump jump_table i in set_ip j ;; ret true
    else ret false
  else if (cmd =? "]")%char then
    let! v := get_cell in
    if v =? 0 then ret false
    else let! i := get_ip in let! j := jump jump_table i in set_ip j ;; ret true
  else raise (RuntimeError cmd).

Definition body : M unit :=
  let! i := get_ip in
  match ops !! i with
  | None => raise IndexError
  | Some (cmd, count) =>
      let! continue := dispatch cmd count in
      if continue : bool then ret tt
      else
        (if debug then
           let! i := get_ip in let! p := get_ptr in let! v := get_cell in
           print [Trace i cmd p v]
         else ret tt) ;;
        let! i := get_ip in set_ip (S i)
  end.

Fixpoint loop (fuel : nat) (s : state) : outcome * state :=
  if (ip s <? length ops)%nat then
    match fuel with
    | O => (OutOfFuel, s)
    | S fuel' =>
        match body s with
        | (inl e, s') => (Raised e, s')
        | (inr _, s') => loop fuel' s'
        end
    end
  else (Finished, s).
End Loop.

Definition run (debug : bool) (ops : list (ascii * Z))
    (lines : list (list char)) (fuel : nat) : outcome * state :=
  let s := initial lines in
  match build_jump_table ops with
  | inl e => (Raised e, s)
  | inr jump_table => loop ops jump_table debug fuel s
  end.

End Batch.

(** ** Reference notions for the jump table *)

Section Brackets.
Local Open Scope nat_scope.

(** Nesting depth after reading [code] from depth [d]; [None] when a
    closing bracket has no opening partner. *)
Fixpoint depth (code : list ascii) (d : nat) : option nat :=
  match code with
  | [] => Some d
  | c :: rest =>
      if (c =? "[")%char then depth rest (S d)
      else if (c =? "]")%char then
        match d with
        | O => None
        | S d' => depth rest d'
        end
      else depth rest d
  end.

Definition balanced (code : list ascii) : bool :=
  match depth code 0 with
  | Some 0 => true
  | _ => false
  end.

Definition bracket_at (code : list ascii) (a : nat) : Prop :=
  code !! a = Some "["%char ∨ code !! a = Some "]"%char.

(** What the scan of [build_jump_table] knows after the first [i]
    instructions. *)
Record scan_inv (code : list ascii) (i : nat) (table : gmap nat nat)
    (stack : list nat) : Prop := ScanInv {
  inv_sym : ∀ a b, table !! a = Some b → table !! b = Some a;
  inv_dom : ∀ a, is_Some (table !! a) ∨ a ∈ stack ↔ a < i ∧ bracket_at code a;
  inv_fresh : ∀ a, a ∈ stack → table !! a = None;
  inv_nodup : NoDup stack;
  inv_depth : depth (take i code) 0 = Some (length stack);
  inv_open : ∀ k a, stack !! k = Some a →
    code !! a = Some "["%char ∧ depth (drop (S a) (take i code)) 0 = Some k
}.

End Brackets.

(** ** Reference notions for the tape and the input *)

(** The tape pointer is inside the tape and every cell is a byte. *)
Definition wf_mem (p : Z) (t : list Z) : Prop :=
  length t = Z.to_nat tape_length ∧
  0 <= p < tape_length ∧
  Forall (fun v => 0 <= v < 256) t.

Definition wf (s : state) : Prop := wf_mem (ptr s) (tape s).

(** The cell under the tape pointer of a well-formed state. *)
Definition cell (s : state) : Z := default 0 (tape s !! Z.to_nat (ptr s)).

(** A state with another value in the cell under the tape pointer. *)
Definition with_cell (s : state) (v : Z) : state :=
  {| ip := ip s; ptr := ptr s; tape := <[Z.to_nat (ptr s) := v]> (tape s);
     stdin := stdin s; stdout := stdout s |}.

(** The input has, for each [,] of [cmds], in order, a line whose first
    character is a byte. *)
Fixpoint sufficient (cmds : list ascii) (lines : list (list char)) : bool :=
  match cmds with
  | [] => true
  | c :: rest =>
      if (c =? ",")%char then
        match lines with
        | (ch :: _) :: lines' => (ord ch <? 256) && sufficient rest lines'
        | _ => false
        end
      else sufficient rest lines
  end.

Definition no_bracket (c : ascii) : bool :=
  negb (c =? "[")%char && negb (c =? "]")%char.

(** The count of a [+] or of a [-] is a byte; any count will do for the
    other instructions. *)
Definition count_fits (op : ascii * Z) : bool :=
  if ((op.1 =? "+") || (op.1 =? "-"))%char
  then (0 <=? op.2) && (op.2 <? 256)
  else true.

(** The instruction indices of the debug lines of an output. *)
Definition trace_ips (out : list out_item) : list nat :=
  flat_map (fun o => match o with Trace i _ _ _ => [i] | Chr _ => [] end) out.

(** The characters of an output, without the debug lines. *)
Definition chars (out : list out_item) : list Z :=
  flat_map (fun o => match o with Chr c => [c] | Trace _ _ _ _ => [] end) out.

Definition valid_op (op : ascii * Z) : Prop := is_operator op.1 = true.

(** The text that a run-length encoded program stands for, and the run
    that [parse_code] of [02_batch.py] has not emitted yet. *)
Definition expand (ops : list (ascii * Z)) : list ascii :=
  flat_map (fun op => replicate (Z.to_nat op.2) op.1) ops.

Definition pending (last : option ascii) (count : Z) : list (ascii * Z) :=
  match last with
  | Some l => [(l, count)]
  | None => []
  end.

(** A state without the debug lines of its output. *)
Definition silent (out : list out_item) : list out_item :=
  List.filter (fun o => match o with Chr _ => true | Trace _ _ _ _ => false end) out.

Definition erase (s : state) : state :=
  {| ip := ip s; ptr := ptr s; tape := tape s;
     stdin := stdin s; stdout := silent (stdout s) |}.

Definition is_runtime_error (o : outcome) : bool :=
  match o with
  | Raised (RuntimeError _) => true
  | _ => false
  end.

(** ** [main.py] *)

Module Main.

(** The module's global [DEBUG = False]; nothing assigns it. *)
Definition DEBUG : bool := false.

Definition parse_code (raw : list ascii) : list ascii :=
  List.filter is_operator raw.

Fixpoint scan (code : list ascii) (i : nat) (table : gmap nat nat)
    (stack : list nat) : exn + (gmap nat nat * list nat) :=
  match code with
  | [] => inr (table, stack)
  | c :: rest =>
      if (c =? "[")%char then scan rest (S i) table (i :: stack)
      else if (c =? "]")%char then
        match stack with
        | [] => inl (UnmatchedCloseBracket i)
        | open_idx :: stack' =>
            scan rest (S i) (<[i := open_idx]> (<[open_idx := i]> table)) stack'
        end
      else scan rest (S i) table stack
  end.

Definition build_jump_table (code : list ascii) : exn + gmap nat nat :=
  match scan code 0%nat ∅ [] with
  | inl e => inl e
  | inr (table, []) => inr table
  | inr (_, top :: _) => inl (UnmatchedOpenBracket top)
  end.

Section Loop.
Variable code : list ascii.
Variable jump_table : gmap nat nat.

Definition dispatch (cmd : ascii) : M bool :=
  if (cmd =? ">")%char then
    let! p := get_ptr in let! n := tape_size in set_ptr ((p + 1) mod n) ;; ret false
  else if (cmd =? "<")%char then
    let! p := get_ptr in let! n := tape_size in set_ptr ((p - 1) mod n) ;; ret false
  else if (cmd =? "+")%char then
    let! v := get_cell in set_cell (uint8 (v + 1)) ;; ret false
  else if (cmd =? "-")%char then
    let! v := get_cell in set_cell (uint8 (v - 1)) ;; ret false
  else if (cmd =? ",")%char then
    let! line := input in let! c := first_char line in
    let! v := np_uint8 (ord c) in set_cell v ;; ret false
  else if (cmd =? ".")%char then
    let! v := get_cell in print [Chr v] ;; ret false
  else if (cmd =? "[")%char then
    let! v := get_cell in
    if v =? 0 then let! i := get_ip in let! j := jump jump_table i in set_ip j ;; ret true
    else ret false
  else if (cmd =? "]")%char then
    let! v := get_cell in
    if v =? 0 then ret false
    else let! i := get_ip in let! j := jump jump_table i in set_ip j ;; ret true
  else raise (RuntimeError cmd).

Definition body : M unit :=
  let! i := get_ip in
  match code !! i with
  | None => raise IndexError
  | Some cmd =>
      let! continue := dispatch cmd in
      if continue : bool then ret tt
      else
        (if DEBUG then
           let! i := get_ip in let! p := get_ptr in let! v := get_cell in
           print [Trace i cmd p v]
         else ret tt) ;;
        let! i := get_ip in set_ip (S i)
  end.

Fixpoint loop (fuel : nat) (s : state) : outcome * state :=
  if (ip s <? length code)%nat then
    match fuel with
    | O => (OutOfFuel, s)
    | S fuel' =>
        match body s with
        | (inl e, s') => (Raised e, s')
        | (inr _, s') => loop fuel' s'
        end
    end
  else (Finished, s).
End Loop.

(** [main(file)], from the text [raw] read from the file. *)
Definition main (raw : list ascii) (lines : list (list char)) (fuel : nat)
  : outcome * state :=
  let code := parse_code raw in
  let s := initial lines in
  match build_jump_table code with
  | inl e => (Raised e, s)
  | inr jump_table => loop code jump_table fuel s
  end.

End Main.

(** ** Reference notions for the further properties *)

(** [i] and [j] are the positions of a [[[]] and of the [[]]] that closes
    it: the code between them is balanced. *)
Definition matching (code : list ascii) (i j : nat) : Prop :=
  (i < j)%nat ∧ code !! i = Some "["%char ∧ code !! j = Some "]"%char ∧
  depth (drop (S i) (take j code)) 0 = Some 0%nat.

(** The table pairs a bracket with its partner. *)
Definition scan_match (code : list ascii) (table : gmap nat nat) : Prop :=
  ∀ a b : nat, table !! a = Some b → matching code a b ∨ matching code b a.

(** The table has a target inside the code for every bracket. *)
Definition good_table (code : list ascii) (table : gmap nat nat) : Prop :=
  ∀ i : nat, bracket_at code i →
    ∃ j : nat, table !! i = Some j ∧ (j < length code)%nat.

(** What [run] may raise at a [,], for the input [lines] it was given and
    the state [s] in which it ends: [input()] at the end of the input;
    [[0]] on an empty line; [np.uint8] on a first character that is no
    byte.  In the last two the line is taken: it is the line before the
    input that is left. *)
Definition input_failure (lines : list (list char)) (e : exn) (s : state)
  : Prop :=
  (e = EOFError ∧ stdin s = []) ∨
  (e = IndexError ∧ ∃ before, lines = before ++ [] :: stdin s) ∨
  (e = OverflowError ∧
   ∃ before c rest, lines = before ++ (c :: rest) :: stdin s ∧ 256 <= ord c).

(** What [run] of [02_batch.py] may raise besides, in the state [s] in
    which it ends: [np.uint8] on the count of the [+] or [-] at which it
    is, when the count is no byte. *)
Definition count_failure (ops : list (ascii * Z)) (e : exn) (s : state)
  : Prop :=
  e = OverflowError ∧ ∃ op, ops !! ip s = Some op ∧ count_fits op = false.

(** What a statement may do to the input and to the output: it writes
    after what is written and reads from the front of what is left. *)
Definition io_extends (s s' : state) : Prop :=
  stdout s `prefix_of` stdout s' ∧ stdin s' `suffix_of` stdin s.

(** An item of the output of a run of [code]: a character is a byte, and a
    debug line names an instruction of [code], a tape index and a byte. *)
Definition item_ok (code : list ascii) (o : out_item) : Prop :=
  match o with
  | Chr v => 0 <= v < 256
  | Trace i c p v =>
      code !! i = Some c ∧ 0 <= p < tape_length ∧ 0 <= v < 256
  end.

Definition is_syntax_error (e : exn) : bool :=
  match e with
  | UnmatchedCloseBracket _ | UnmatchedOpenBracket _ => true
  | _ => false
  end.

Definition is_bracket (c : ascii) : bool :=
  (c =? "[")%char || (c =? "]")%char.

(** The operators whose run-length instruction [run] of [02_batch.py]
    executes with its count. *)
Definition repeatable (c : ascii) : bool :=
  existsb (Ascii.eqb c) (str "><+-.").

(** No two neighbours of an instruction sequence have the same operator. *)
Fixpoint distinct_neighbours (ops : list (ascii * Z)) : bool :=
  match ops with
  | [] => true
  | (c, _) :: rest =>
      match rest with
      | [] => true
      | (c', _) :: _ => negb (c =? c')%char && distinct_neighbours rest
      end
  end.

(** The index in the text of the first character of instruction [k]. *)
Definition offset (ops : list (ascii * Z)) (k : nat) : nat :=
  length (expand (take k ops)).

(** Every instruction has one of the eight operators and a count of at
    least 1, and the count of a bracket and of [,] is 1. *)
Definition plain (ops : list (ascii * Z)) : bool :=
  forallb (fun op => is_operator op.1 && (1 <=? op.2) &&
                     (repeatable op.1 || (op.2 =? 1))) ops.

(** The jump table of the instructions, read in the text: an entry of
    [tb] is the entry of [ts] at the indices in the text. *)
Definition table_in_text (ops : list (ascii * Z)) (k : nat)
    (tb ts : gmap nat nat) : Prop :=
  ∀ a b : nat, tb !! a = Some b →
    (a < k)%nat ∧ ts !! offset ops a = Some (offset ops b).

(** A state at another instruction. *)
Definition at_ip (i : nat) (s : state) : state :=
  {| ip := i; ptr := ptr s; tape := tape s;
     stdin := stdin s; stdout := stdout s |}.

(** The state of the encoded program, as a state of its text. *)
Definition state_in_text (ops : list (ascii * Z)) (s : state) : state :=
  at_ip (offset ops (ip s)) s.

(** An exception of the encoded program, as the text reports it: the index
    of a bracket becomes its index in the text. *)
Definition exn_in_text (ops : list (ascii * Z)) (e : exn) : exn :=
  match e with
  | UnmatchedCloseBracket i => UnmatchedCloseBracket (offset ops i)
  | UnmatchedOpenBracket i => UnmatchedOpenBracket (offset ops i)
  | _ => e
  end.

Definition outcome_in_text (ops : list (ascii * Z)) (o : outcome) : outcome :=
  match o with
  | Raised e => Raised (exn_in_text ops e)
  | _ => o
  end.

(** The run of the text and the run of its encoding agree: the same
    outcome, output, input left, tape and tape pointer, at the same place in
    the program. *)
Definition same_run (ops : list (ascii * Z)) (direct encoded : outcome * state)
  : Prop :=
  direct.1 = outcome_in_text ops encoded.1 ∧
  stdout direct.2 = stdout encoded.2 ∧ stdin direct.2 = stdin encoded.2 ∧
  tape direct.2 = tape encoded.2 ∧ ptr direct.2 = ptr encoded.2 ∧
  ip direct.2 = offset ops (ip encoded.2).

(** ** The jump table *)

Section JumpTable.
Local Open Scope nat_scope.

Lemma depth_app (l1 l2 : list ascii) (d : nat) :
  depth (l1 ++ l2) d = match depth l1 d with
                       | Some d' => depth l2 d'
                       | None => None
                       end.
Proof.
  revert d. induction l1 as [|c l1 IH]; intros d; simpl; [done|].
  destruct (c =? "[")%char; [apply IH|].
  destruct (c =? "]")%char; [|apply IH].
  destruct d; [done|apply IH].
Qed.

Lemma take_snoc_lookup (code : list ascii) (i : nat) (c : ascii) :
  code !! i = Some c → take (S i) code = take i code ++ [c].
Proof. intros H. by apply take_S_r. Qed.

Lemma drop_take_snoc (code : list ascii) (a i : nat) (c : ascii) :
  a < i → code !! i = Some c →
  drop (S a) (take (S i) code) = drop (S a) (take i code) ++ [c].
Proof.
  intros Ha Hc. rewrite (take_snoc_lookup _ _ _ Hc).
  rewrite drop_app_le; [done|].
  rewrite length_take. apply lookup_lt_Some in Hc. lia.
Qed.

Lemma scan_inv_init (code : list ascii) : scan_inv code 0 ∅ [].
Proof.
  split.
  - intros a b H. by rewrite lookup_empty in H.
  - intros a. split.
    + intros [[x H]|H]; [by rewrite lookup_empty in H|by apply elem_of_nil in H].
    + intros [H _]. lia.
  - intros a H. by apply elem_of_nil in H.
  - constructor.
  - by rewrite take_0.
  - intros k a H. by rewrite lookup_nil in H.
Qed.

Lemma scan_inv_dom_table code i table stack a :
  scan_inv code i table stack → is_Some (table !! a) → a < i ∧ bracket_at code a.
Proof. intros I H. apply (inv_dom _ _ _ _ I a). by left. Qed.

Lemma scan_inv_dom_stack code i table stack a :
  scan_inv code i table stack → a ∈ stack → a < i ∧ bracket_at code a.
Proof. intros I H. apply (inv_dom _ _ _ _ I a). by right. Qed.

Lemma scan_inv_dom_cover code i table stack a :
  scan_inv code i table stack → a < i → bracket_at code a →
  is_Some (table !! a) ∨ a ∈ stack.
Proof. intros I H1 H2. by apply (inv_dom _ _ _ _ I a). Qed.

Lemma scan_inv_lt_stack code i table stack a :
  scan_inv code i table stack → a ∈ stack → a < i.
Proof. intros I H. apply (inv_dom _ _ _ _ I a). by right. Qed.

Lemma scan_inv_lt_table code i table stack a b :
  scan_inv code i table stack → table !! a = Some b → a < i ∧ b < i.
Proof.
  intros I H. split.
  - apply (inv_dom _ _ _ _ I a). left. by exists b.
  - apply (inv_dom _ _ _ _ I b). left. exists a. by apply (inv_sym _ _ _ _ I).
Qed.

Lemma scan_inv_push code i table stack :
  code !! i = Some "["%char →
  scan_inv code i table stack → scan_inv code (S i) table (i :: stack).
Proof.
  intros Hc I. split.
  - apply (inv_sym _ _ _ _ I).
  - intros a. rewrite elem_of_cons. split.
    + intros [H|[->|H]].
      * apply (scan_inv_dom_table _ _ _ _ _ I) in H as [? ?]. split; [lia|done].
      * split; [lia|by left].
      * apply (scan_inv_dom_stack _ _ _ _ _ I) in H as [? ?]. split; [lia|done].
    + intros [Hlt Hb]. destruct (decide (a = i)) as [->|Hne]; [by right; left|].
      destruct (scan_inv_dom_cover _ _ _ _ a I) as [?|?]; [lia|done|auto..].
  - intros a. rewrite elem_of_cons. intros [->|H].
    + destruct (table !! i) as [b|] eqn:E; [|done].
      apply (scan_inv_lt_table _ _ _ _ _ _ I) in E. lia.
    + by apply (inv_fresh _ _ _ _ I).
  - constructor; [|apply (inv_nodup _ _ _ _ I)].
    intros H. apply (scan_inv_lt_stack _ _ _ _ _ I) in H. lia.
  - rewrite (take_snoc_lookup _ _ _ Hc), depth_app, (inv_depth _ _ _ _ I). done.
  - intros [|k] a; simpl.
    + intros [= <-]. split; [done|].
      rewrite drop_ge; [done|]. rewrite length_take. lia.
    + intros H. destruct (inv_open _ _ _ _ I k a H) as [Ha Hd]. split; [done|].
      assert (a < i) by (eapply scan_inv_lt_stack; [done|by eapply list_elem_of_lookup_2]).
      rewrite (drop_take_snoc _ _ _ _ ltac:(done) Hc), depth_app, Hd. done.
Qed.

Lemma scan_inv_skip code i c table stack :
  code !! i = Some c → (c =? "[")%char = false → (c =? "]")%char = false →
  scan_inv code i table stack → scan_inv code (S i) table stack.
Proof.
  intros Hc Ho Hcl I. split.
  - apply (inv_sym _ _ _ _ I).
  - intros a. rewrite (inv_dom _ _ _ _ I a). split.
    + intros [? ?]. split; [lia|done].
    + intros [Hlt Hb]. split; [|done].
      destruct (decide (a = i)) as [->|]; [|lia].
      destruct Hb as [Hb|Hb]; rewrite Hc in Hb; injection Hb as ->; done.
  - apply (inv_fresh _ _ _ _ I).
  - apply (inv_nodup _ _ _ _ I).
  - rewrite (take_snoc_lookup _ _ _ Hc), depth_app, (inv_depth _ _ _ _ I).
    simpl. by rewrite Ho, Hcl.
  - intros k a H. destruct (inv_open _ _ _ _ I k a H) as [Ha Hd]. split; [done|].
    assert (a < i) by (eapply scan_inv_lt_stack; [done|by eapply list_elem_of_lookup_2]).
    rewrite (drop_take_snoc _ _ _ _ ltac:(done) Hc), depth_app, Hd.
    simpl. by rewrite Ho, Hcl.
Qed.

Lemma scan_inv_pop code i table open_idx stack :
  code !! i = Some "]"%char →
  scan_inv code i table (open_idx :: stack) →
  scan_inv code (S i) (<[i := open_idx]> (<[open_idx := i]> table)) stack.
Proof.
  intros Hc I.
  assert (open_idx < i) as Hoi
    by (eapply scan_inv_lt_stack; [done|by left]).
  assert (table !! open_idx = None) as Hfresh
    by (apply (inv_fresh _ _ _ _ I); by left).
  pose proof (inv_nodup _ _ _ _ I) as Hnd. apply NoDup_cons in Hnd as [Hnotin Hnd].
  split.
  - intros a b. destruct (decide (a = i)) as [->|Hai].
    { rewrite lookup_insert_eq. intros [= <-].
      rewrite lookup_insert_ne by lia. by rewrite lookup_insert_eq. }
    rewrite lookup_insert_ne by done.
    destruct (decide (a = open_idx)) as [->|Hao].
    { rewrite lookup_insert_eq. intros [= <-]. by rewrite lookup_insert_eq. }
    rewrite lookup_insert_ne by done. intros H.
    destruct (scan_inv_lt_table _ _ _ _ _ _ I H) as [_ Hb].
    pose proof (inv_sym _ _ _ _ I _ _ H) as Hba.
    rewrite lookup_insert_ne by lia.
    rewrite lookup_insert_ne by congruence. done.
  - intros a. split.
    + intros [H|H].
      * destruct (decide (a = i)) as [->|Hai]; [split; [lia|by right]|].
        rewrite lookup_insert_ne in H by done.
        destruct (decide (a = open_idx)) as [->|Hao].
        { destruct (scan_inv_dom_stack _ _ _ _ open_idx I) as [? ?]; [by left|].
          split; [lia|done]. }
        rewrite lookup_insert_ne in H by done.
        apply (scan_inv_dom_table _ _ _ _ _ I) in H as [? ?]. split; [lia|done].
      * destruct (scan_inv_dom_stack _ _ _ _ a I) as [? ?]; [by right|].
        split; [lia|done].
    + intros [Hlt Hb]. destruct (decide (a = i)) as [->|Hai].
      { left. rewrite lookup_insert_eq. by eexists. }
      destruct (decide (a = open_idx)) as [->|Hao].
      { left. rewrite lookup_insert_ne by done. rewrite lookup_insert_eq. by eexists. }
      destruct (scan_inv_dom_cover _ _ _ _ a I) as [H|H]; [lia|done|..].
      * left. by rewrite !lookup_insert_ne by done.
      * right. apply elem_of_cons in H as [?|?]; [done|done].
  - intros a Ha.
    assert (a < i) by (eapply scan_inv_lt_stack; [done|by right]).
    rewrite lookup_insert_ne by lia.
    rewrite lookup_insert_ne by (intros ->; done).
    apply (inv_fresh _ _ _ _ I). by right.
  - done.
  - rewrite (take_snoc_lookup _ _ _ Hc), depth_app, (inv_depth _ _ _ _ I). done.
  - intros k a H. destruct (inv_open _ _ _ _ I (S k) a H) as [Ha Hd]. split; [done|].
    assert (a < i).
    { eapply scan_inv_lt_stack; [done|]. right. by eapply list_elem_of_lookup_2. }
    rewrite (drop_take_snoc _ _ _ _ ltac:(done) Hc), depth_app, Hd. done.
Qed.

(** The scan from position [i], where [rest] is what remains of [code]:
    it keeps the invariant to the end of the code, or stops at a closing
    bracket met with an empty stack. *)
Lemma scan_spec (code rest : list ascii) (i : nat) table stack :
  i ≤ length code →
  drop i code = rest →
  scan_inv code i table stack →
  match Simple.scan rest i table stack with
  | inr (table', stack') => scan_inv code (length code) table' stack'
  | inl e => ∃ j, e = UnmatchedCloseBracket j ∧
                  code !! j = Some "]"%char ∧ depth (take j code) 0 = Some 0
  end.
Proof.
  revert i table stack.
  induction rest as [|c rest IH]; intros i table stack Hle Hd I.
  - simpl. apply (f_equal length) in Hd. rewrite length_drop in Hd. simpl in Hd.
    by replace (length code) with i by lia.
  - assert (code !! i = Some c) as Hc.
    { rewrite <- (Nat.add_0_r i), <- lookup_drop, Hd. done. }
    assert (drop (S i) code = rest) as Hd'.
    { replace (S i) with (i + 1) by lia. rewrite <- drop_drop, Hd. done. }
    assert (S i ≤ length code) as Hle' by (by apply lookup_lt_Some in Hc).
    simpl. destruct (c =? "[")%char eqn:Ho.
    { apply Ascii.eqb_eq in Ho as ->. apply IH; [done..|].
      by apply scan_inv_push. }
    destruct (c =? "]")%char eqn:Hcl.
    + apply Ascii.eqb_eq in Hcl as ->. destruct stack as [|open_idx stack].
      * exists i. split; [done|]. split; [done|]. apply (inv_depth _ _ _ _ I).
      * apply IH; [done..|]. by apply scan_inv_pop.
    + apply IH; [done..|]. by eapply scan_inv_skip.
Qed.

Lemma depth_unmatched_close (code : list ascii) (j : nat) :
  code !! j = Some "]"%char → depth (take j code) 0 = Some 0 →
  depth code 0 = None.
Proof.
  intros Hc Hd. rewrite <- (take_drop j code), depth_app, Hd.
  rewrite (drop_S _ _ _ Hc). done.
Qed.

(** [build_jump_table] in one statement: the table it returns, and the
    error it raises. *)
Lemma build_jump_table_spec (code : list ascii) :
  match Simple.build_jump_table code with
  | inr table =>
      depth code 0 = Some 0 ∧
      (∀ a b, table !! a = Some b → table !! b = Some a) ∧
      (∀ a, is_Some (table !! a) ↔ bracket_at code a)
  | inl (UnmatchedCloseBracket j) =>
      code !! j = Some "]"%char ∧ depth (take j code) 0 = Some 0 ∧
      depth code 0 = None
  | inl (UnmatchedOpenBracket j) =>
      code !! j = Some "["%char ∧ depth (drop (S j) code) 0 = Some 0 ∧
      ∃ k, depth code 0 = Some (S k)
  | inl _ => False
  end.
Proof.
  unfold Simple.build_jump_table.
  pose proof (scan_spec code code 0 ∅ [] (Nat.le_0_l _) eq_refl (scan_inv_init code)) as H.
  destruct (Simple.scan code 0 ∅ []) as [e|[table stack]].
  - destruct H as (j & -> & Hc & Hd). split; [done|]. split; [done|].
    by eapply depth_unmatched_close.
  - pose proof (inv_depth _ _ _ _ H) as Hdep. rewrite take_ge in Hdep by done.
    destruct stack as [|top stack].
    + split; [done|]. split; [apply (inv_sym _ _ _ _ H)|].
      intros a. split.
      * intros Ha. by apply (scan_inv_dom_table _ _ _ _ _ H).
      * intros Hb. destruct (scan_inv_dom_cover _ _ _ _ a H) as [?|Hn]; [|done|done|].
        -- destruct Hb as [Hb|Hb]; by apply lookup_lt_Some in Hb.
        -- by apply elem_of_nil in Hn.
    + destruct (inv_open _ _ _ _ H 0 top eq_refl) as [Hc Hd].
      rewrite take_ge in Hd by done. split; [done|]. split; [done|].
      by exists (length stack).
Qed.

Lemma batch_scan_fst (ops : list (ascii * Z)) (i : nat) table stack :
  Batch.scan ops i table stack = Simple.scan (ops.*1) i table stack.
Proof.
  revert i table stack. induction ops as [|[c n] ops IH]; intros i table stack; [done|].
  simpl. destruct (c =? "[")%char; [apply IH|].
  destruct (c =? "]")%char; [|apply IH].
  destruct stack; [done|apply IH].
Qed.

Lemma batch_build_jump_table_fst (ops : list (ascii * Z)) :
  Batch.build_jump_table ops = Simple.build_jump_table (ops.*1).
Proof. unfold Batch.build_jump_table, Simple.build_jump_table. by rewrite batch_scan_fst. Qed.

Lemma build_jump_table_balanced (code : list ascii) :
  balanced code = true ↔ ∃ table, Simple.build_jump_table code = inr table.
Proof.
  pose proof (build_jump_table_spec code) as H. unfold balanced.
  destruct (Simple.build_jump_table code) as [e|table].
  - split; [|by intros [? ?]]. intros Hb.
    destruct e; try done; destruct H as (_ & _ & H).
    + by rewrite H in Hb.
    + destruct H as [k H]. by rewrite H in Hb.
  - split; [by eexists|]. intros _. destruct H as [-> _]. done.
Qed.

End JumpTable.

(** ** The tape *)

Section Tape.

Lemma uint8_range (z : Z) : 0 <= uint8 z < 256.
Proof. unfold uint8. apply Z.mod_pos_bound. lia. Qed.

Lemma ord_range (c : ascii) : 0 <= ord c < 256.
Proof. unfold ord, char_of_ascii. pose proof (N_ascii_bounded c). lia. Qed.

Lemma ord_nonneg (c : char) : 0 <= ord c.
Proof. unfold ord. lia. Qed.

Lemma byte_spec (z : Z) : (0 <=? z) && (z <? 256) = true ↔ 0 <= z < 256.
Proof. rewrite andb_true_iff, Z.leb_le, Z.ltb_lt. done. Qed.

Lemma byte_true (z : Z) : (0 <=? z) && (z <? 256) = true → 0 <= z < 256.
Proof. apply byte_spec. Qed.

Lemma np_uint8_byte (z : Z) (s : state) :
  0 <= z < 256 → np_uint8 z s = (inr z, s).
Proof. intros H. unfold np_uint8. by rewrite (proj2 (byte_spec z) H). Qed.

Lemma np_uint8_overflow (z : Z) (s : state) :
  ¬ 0 <= z < 256 → np_uint8 z s = (inl OverflowError, s).
Proof.
  intros H. unfold np_uint8.
  destruct ((0 <=? z) && (z <? 256)) eqn:E; [|done].
  by apply byte_spec in E.
Qed.

Lemma uint8_small (z : Z) : 0 <= z < 256 → uint8 z = z.
Proof. intros H. unfold uint8. by apply Z.mod_small. Qed.

Lemma wf_initial (lines : list (list char)) : wf (initial lines).
Proof.
  split; [apply length_replicate|]. split; [done|].
  apply Forall_replicate. lia.
Qed.

Lemma getitem_wf (p : Z) (t : list Z) :
  wf_mem p t → ∃ v, getitem t p = Some v ∧ t !! Z.to_nat p = Some v ∧ 0 <= v < 256.
Proof.
  intros (Hlen & Hp & Hall). unfold getitem.
  destruct (Z.leb_spec 0 p); [|lia].
  destruct (lookup_lt_is_Some_2 t (Z.to_nat p)) as [v Hv]; [lia|].
  exists v. split; [done|]. split; [done|].
  by apply (Forall_lookup_1 _ _ _ _ Hall Hv).
Qed.

Lemma setitem_wf (p : Z) (t : list Z) (v : Z) :
  wf_mem p t → 0 <= v < 256 →
  setitem t p v = Some (<[Z.to_nat p := v]> t) ∧ wf_mem p (<[Z.to_nat p := v]> t).
Proof.
  intros Hwf Hv. destruct (getitem_wf p t Hwf) as (w & _ & Hw & _).
  destruct Hwf as (Hlen & Hp & Hall). unfold setitem.
  destruct (Z.leb_spec 0 p); [|lia]. simpl. rewrite Hw. split; [done|].
  split; [by rewrite length_insert|]. split; [done|].
  by apply Forall_insert.
Qed.

Lemma wf_move (p q : Z) (t : list Z) :
  wf_mem p t → wf_mem (q mod Z.of_nat (length t)) t.
Proof.
  intros (Hlen & Hp & Hall). split; [done|]. split; [|done].
  rewrite Hlen, Z2Nat.id by done. by apply Z.mod_pos_bound.
Qed.

End Tape.

(** ** Execution of the statements *)

Ltac case_cmd :=
  repeat match goal with
         | |- context [Ascii.eqb ?a ?b] => destruct (Ascii.eqb a b) eqn:?
         end.

Ltac exec :=
  cbv [bind ret raise get_ip get_ptr set_ip set_ptr tape_size get_cell
       set_cell input first_char np_uint8 print jump].

Section Invariant.

Lemma setitem_wf_inv (p : Z) (t t' : list Z) (v : Z) :
  wf_mem p t → 0 <= v < 256 → setitem t p v = Some t' → wf_mem p t'.
Proof.
  intros Hwf Hv H. destruct (setitem_wf p t v Hwf Hv) as [E Hwf'].
  rewrite E in H. by injection H as <-.
Qed.

Lemma simple_dispatch_wf jt cmd s :
  wf s → wf (Simple.dispatch jt cmd s).2.
Proof.
  intros Hwf. unfold Simple.dispatch, wf in *.
  case_cmd; exec; repeat case_match; simplify_eq/=;
    eauto using wf_move, setitem_wf_inv, uint8_range, byte_true.
Qed.

Lemma batch_dispatch_wf jt cmd n s :
  wf s → wf (Batch.dispatch jt cmd n s).2.
Proof.
  intros Hwf. unfold Batch.dispatch, wf in *.
  case_cmd; exec; repeat case_match; simplify_eq/=;
    eauto using wf_move, setitem_wf_inv, uint8_range, byte_true.
Qed.

Lemma simple_body_wf code jt debug s :
  wf s → wf (Simple.body code jt debug s).2.
Proof.
  intros Hwf. unfold Simple.body, bind at 1, get_ip.
  destruct (code !! ip s) as [cmd|]; [|done].
  unfold bind at 1. pose proof (simple_dispatch_wf jt cmd s Hwf) as H.
  destruct (Simple.dispatch jt cmd s) as [[e|[|]] s']; simpl in *; [done..|].
  destruct debug; exec; repeat case_match; simplify_eq/=; done.
Qed.

Lemma batch_body_wf ops jt debug s :
  wf s → wf (Batch.body ops jt debug s).2.
Proof.
  intros Hwf. unfold Batch.body, bind at 1, get_ip.
  destruct (ops !! ip s) as [[cmd n]|]; [|done].
  unfold bind at 1. pose proof (batch_dispatch_wf jt cmd n s Hwf) as H.
  destruct (Batch.dispatch jt cmd n s) as [[e|[|]] s']; simpl in *; [done..|].
  destruct debug; exec; repeat case_match; simplify_eq/=; done.
Qed.

Lemma simple_loop_wf code jt debug fuel s :
  wf s → wf (Simple.loop code jt debug fuel s).2.
Proof.
  revert s. induction fuel as [|fuel IH]; intros s Hwf; simpl.
  - by destruct (ip s <? length code)%nat.
  - destruct (ip s <? length code)%nat; [|done].
    pose proof (simple_body_wf code jt debug s Hwf) as H.
    destruct (Simple.body code jt debug s) as [[e|[]] s']; [done|by apply IH].
Qed.

Lemma batch_loop_wf ops jt debug fuel s :
  wf s → wf (Batch.loop ops jt debug fuel s).2.
Proof.
  revert s. induction fuel as [|fuel IH]; intros s Hwf; simpl.
  - by destruct (ip s <? length ops)%nat.
  - destruct (ip s <? length ops)%nat; [|done].
    pose proof (batch_body_wf ops jt debug s Hwf) as H.
    destruct (Batch.body ops jt debug s) as [[e|[]] s']; [done|by apply IH].
Qed.

Lemma simple_run_wf debug code lines fuel :
  wf (Simple.run debug code lines fuel).2.
Proof.
  unfold Simple.run. destruct (Simple.build_jump_table code); simpl.
  - apply wf_initial.
  - apply simple_loop_wf, wf_initial.
Qed.

Lemma batch_run_wf debug ops lines fuel :
  wf (Batch.run debug ops lines fuel).2.
Proof.
  unfold Batch.run. destruct (Batch.build_jump_table ops); simpl.
  - apply wf_initial.
  - apply batch_loop_wf, wf_initial.
Qed.

(** More fuel does not change a run that ended. *)
Lemma simple_loop_fuel code jt debug fuel extra s :
  (Simple.loop code jt debug fuel s).1 ≠ OutOfFuel →
  Simple.loop code jt debug (fuel + extra) s = Simple.loop code jt debug fuel s.
Proof.
  revert s. induction fuel as [|fuel IH]; intros s; simpl.
  - destruct extra; simpl; destruct (ip s <? length code)%nat; done.
  - destruct (ip s <? length code)%nat; [|done].
    destruct (Simple.body code jt debug s) as [[e|[]] s']; [done|apply IH].
Qed.

Lemma batch_loop_fuel ops jt debug fuel extra s :
  (Batch.loop ops jt debug fuel s).1 ≠ OutOfFuel →
  Batch.loop ops jt debug (fuel + extra) s = Batch.loop ops jt debug fuel s.
Proof.
  revert s. induction fuel as [|fuel IH]; intros s; simpl.
  - destruct extra; simpl; destruct (ip s <? length ops)%nat; done.
  - destruct (ip s <? length ops)%nat; [|done].
    destruct (Batch.body ops jt debug s) as [[e|[]] s']; [done|apply IH].
Qed.

Lemma simple_run_fuel debug code lines fuel extra :
  (Simple.run debug code lines fuel).1 ≠ OutOfFuel →
  Simple.run debug code lines (fuel + extra) = Simple.run debug code lines fuel.
Proof.
  unfold Simple.run. destruct (Simple.build_jump_table code); [done|].
  apply simple_loop_fuel.
Qed.

Lemma batch_run_fuel debug ops lines fuel extra :
  (Batch.run debug ops lines fuel).1 ≠ OutOfFuel →
  Batch.run debug ops lines (fuel + extra) = Batch.run debug ops lines fuel.
Proof.
  unfold Batch.run. destruct (Batch.build_jump_table ops); [done|].
  apply batch_loop_fuel.
Qed.

End Invariant.

(** ** Code without brackets *)

Section Straight.

Lemma trace_ips_app (a b : list out_item) :
  trace_ips (a ++ b) = trace_ips a ++ trace_ips b.
Proof. unfold trace_ips. apply flat_map_app. Qed.

Lemma trace_ips_chars (a : list out_item) (n : nat) (v : Z) :
  trace_ips (a ++ replicate n (Chr v)) = trace_ips a.
Proof.
  rewrite trace_ips_app. induction n as [|n IH]; simpl; [apply app_nil_r|done].
Qed.

Lemma trace_ips_chr (a : list out_item) (v : Z) :
  trace_ips (a ++ [Chr v]) = trace_ips a.
Proof. apply (trace_ips_chars a 1 v). Qed.

(** An instruction that is no bracket does not jump. *)
Lemma simple_dispatch_straight jt c rest s :
  wf s → no_bracket c = true → sufficient (c :: rest) (stdin s) = true →
  ∃ s', Simple.dispatch jt c s = (inr false, s') ∧ wf s' ∧ ip s' = ip s ∧
        sufficient rest (stdin s') = true ∧
        trace_ips (stdout s') = trace_ips (stdout s).
Proof.
  intros Hwf Hnb Hsuf. pose proof (simple_dispatch_wf jt c s Hwf) as Hwf'.
  destruct (getitem_wf _ _ Hwf) as (v & Hg & _ & Hv).
  revert Hwf' Hnb Hsuf. unfold Simple.dispatch, no_bracket. simpl.
  destruct (c =? ",")%char eqn:E.
  - apply Ascii.eqb_eq in E as ->. simpl.
    destruct (stdin s) as [|[|ch line] lines] eqn:Hin; [done..|].
    intros Hwf' _ Hsuf. apply andb_true_iff in Hsuf as [Hch Hsuf].
    apply Z.ltb_lt in Hch. pose proof (ord_nonneg ch) as Hch'.
    revert Hwf'. exec. rewrite Hin, (proj2 (byte_spec (ord ch))) by lia. simpl.
    destruct (setitem_wf _ _ (ord ch) Hwf ltac:(lia)) as [-> _].
    intros Hwf'. eexists. split; [reflexivity|]. simpl in *.
    split_and!; assumption || reflexivity.
  - case_cmd; try done; exec; rewrite ?Hg; simpl;
    try (destruct (setitem_wf _ _ (uint8 (v + 1)) Hwf (uint8_range _)) as [-> _]);
    try (destruct (setitem_wf _ _ (uint8 (v - 1)) Hwf (uint8_range _)) as [-> _]);
    intros Hwf' _ Hsuf; (eexists; split; [reflexivity|]); simpl in *;
    rewrite ?trace_ips_chr; split_and!; assumption || reflexivity.
Qed.

Lemma batch_dispatch_straight jt c n rest s :
  wf s → is_operator c = true → no_bracket c = true →
  count_fits (c, n) = true →
  sufficient (c :: rest) (stdin s) = true →
  ∃ s', Batch.dispatch jt c n s = (inr false, s') ∧ wf s' ∧ ip s' = ip s ∧
        sufficient rest (stdin s') = true ∧
        trace_ips (stdout s') = trace_ips (stdout s).
Proof.
  intros Hwf Hop Hnb Hfit Hsuf.
  pose proof (batch_dispatch_wf jt c n s Hwf) as Hwf'.
  destruct (getitem_wf _ _ Hwf) as (v & Hg & _ & Hv).
  revert Hfit Hwf' Hop Hnb Hsuf.
  unfold Batch.dispatch, no_bracket, is_operator, count_fits. simpl.
  destruct (c =? ",")%char eqn:E.
  - apply Ascii.eqb_eq in E as ->. simpl.
    destruct (stdin s) as [|[|ch line] lines] eqn:Hin; [done..|].
    intros _ Hwf' _ _ Hsuf. apply andb_true_iff in Hsuf as [Hch Hsuf].
    apply Z.ltb_lt in Hch. pose proof (ord_nonneg ch) as Hch'.
    revert Hwf'. exec. rewrite Hin, (proj2 (byte_spec (ord ch))) by lia. simpl.
    destruct (setitem_wf _ _ (ord ch) Hwf ltac:(lia)) as [-> _].
    intros Hwf'. eexists. split; [reflexivity|]. simpl in *.
    split_and!; assumption || reflexivity.
  - case_cmd; try done; exec; rewrite ?Hg; simpl;
    try match goal with
        | |- context [(0 <=? n) && (n <? 256)] =>
            destruct ((0 <=? n) && (n <? 256)); [|done]
        end;
    try (destruct (setitem_wf _ _ (uint8 (v + n)) Hwf (uint8_range _)) as [-> _]);
    try (destruct (setitem_wf _ _ (uint8 (v - n)) Hwf (uint8_range _)) as [-> _]);
    intros _ Hwf' _ _ Hsuf; (eexists; split; [reflexivity|]); simpl in *;
    rewrite ?trace_ips_chars; split_and!; assumption || reflexivity.
Qed.

Lemma simple_body_straight code jt debug c rest s :
  wf s → code !! ip s = Some c → no_bracket c = true →
  sufficient (c :: rest) (stdin s) = true →
  ∃ s', Simple.body code jt debug s = (inr tt, s') ∧ wf s' ∧ ip s' = S (ip s) ∧
        sufficient rest (stdin s') = true ∧
        trace_ips (stdout s') =
          trace_ips (stdout s) ++ (if debug then [ip s] else []).
Proof.
  intros Hwf Hc Hnb Hsuf.
  destruct (simple_dispatch_straight jt c rest s Hwf Hnb Hsuf)
    as (s1 & Hd & Hwf1 & Hip & Hsuf1 & Htr).
  destruct (getitem_wf _ _ Hwf1) as (v & Hg & _ & _).
  unfold Simple.body, bind at 1, get_ip. rewrite Hc. unfold bind at 1. rewrite Hd.
  destruct debug; exec; rewrite ?Hg; simpl; (eexists; split; [done|]); simpl;
    rewrite ?trace_ips_app, ?Htr, ?Hip; simpl; rewrite ?app_nil_r; done.
Qed.

Lemma batch_body_straight ops jt debug c n rest s :
  wf s → ops !! ip s = Some (c, n) → is_operator c = true → no_bracket c = true →
  count_fits (c, n) = true →
  sufficient (c :: rest) (stdin s) = true →
  ∃ s', Batch.body ops jt debug s = (inr tt, s') ∧ wf s' ∧ ip s' = S (ip s) ∧
        sufficient rest (stdin s') = true ∧
        trace_ips (stdout s') =
          trace_ips (stdout s) ++ (if debug then [ip s] else []).
Proof.
  intros Hwf Hc Hop Hnb Hfit Hsuf.
  destruct (batch_dispatch_straight jt c n rest s Hwf Hop Hnb Hfit Hsuf)
    as (s1 & Hd & Hwf1 & Hip & Hsuf1 & Htr).
  destruct (getitem_wf _ _ Hwf1) as (v & Hg & _ & _).
  unfold Batch.body, bind at 1, get_ip. rewrite Hc. unfold bind at 1. rewrite Hd.
  destruct debug; exec; rewrite ?Hg; simpl; (eexists; split; [done|]); simpl;
    rewrite ?trace_ips_app, ?Htr, ?Hip; simpl; rewrite ?app_nil_r; done.
Qed.

Local Open Scope nat_scope.

(** The loop on bracket-free code: one iteration per unit of fuel, one
    instruction further each time, until the end of the code. *)
Lemma simple_loop_straight code jt debug fuel s :
  wf s → ip s ≤ length code →
  forallb no_bracket (drop (ip s) code) = true →
  sufficient (drop (ip s) code) (stdin s) = true →
  ∃ s', Simple.loop code jt debug fuel s =
          (if fuel <? length code - ip s then OutOfFuel else Finished, s') ∧
        ip s' = ip s + fuel `min` (length code - ip s) ∧
        trace_ips (stdout s') =
          trace_ips (stdout s) ++
          (if debug then seq (ip s) (fuel `min` (length code - ip s)) else []).
Proof.
  revert s. induction fuel as [|fuel IH]; intros s Hwf Hle Hnb Hsuf.
  - simpl. exists s. destruct (Nat.ltb_spec (ip s) (length code)) as [Hlt|Hge].
    + destruct (Nat.ltb_spec 0 (length code - ip s)); [|lia].
      split; [done|]. split; [lia|]. destruct debug; by rewrite app_nil_r.
    + destruct (Nat.ltb_spec 0 (length code - ip s)); [lia|].
      split; [done|]. split; [lia|]. destruct debug; by rewrite app_nil_r.
  - simpl Simple.loop. destruct (Nat.ltb_spec (ip s) (length code)) as [Hlt|Hge].
    + destruct (lookup_lt_is_Some_2 code (ip s) Hlt) as [c Hc].
      rewrite (drop_S _ _ _ Hc) in Hnb, Hsuf. simpl in Hnb.
      apply andb_true_iff in Hnb as [Hnb Hnb'].
      destruct (simple_body_straight code jt debug c _ s Hwf Hc Hnb Hsuf)
        as (s1 & -> & Hwf1 & Hip & Hsuf1 & Htr).
      rewrite <- Hip in Hnb', Hsuf1.
      destruct (IH s1 Hwf1 ltac:(lia) Hnb' Hsuf1) as (s' & -> & Hip' & Htr').
      exists s'. rewrite Hip in *.
      replace (S fuel <? length code - ip s) with (fuel <? length code - S (ip s)).
      2:{ destruct (Nat.ltb_spec fuel (length code - S (ip s)));
          destruct (Nat.ltb_spec (S fuel) (length code - ip s)); lia || done. }
      split; [done|]. split; [lia|]. rewrite Htr', Htr, <- app_assoc. f_equal.
      destruct debug; [|done].
      replace (S fuel `min` (length code - ip s))
        with (S (fuel `min` (length code - S (ip s)))) by lia. done.
    + exists s. destruct (Nat.ltb_spec (S fuel) (length code - ip s)); [lia|].
      split; [done|]. split; [lia|].
      replace (S fuel `min` (length code - ip s)) with 0 by lia.
      destruct debug; by rewrite app_nil_r.
Qed.

Lemma batch_loop_straight ops jt debug fuel s :
  wf s → ip s ≤ length ops →
  forallb is_operator (drop (ip s) ops).*1 = true →
  forallb no_bracket (drop (ip s) ops).*1 = true →
  forallb count_fits (drop (ip s) ops) = true →
  sufficient (drop (ip s) ops).*1 (stdin s) = true →
  ∃ s', Batch.loop ops jt debug fuel s =
          (if fuel <? length ops - ip s then OutOfFuel else Finished, s') ∧
        ip s' = ip s + fuel `min` (length ops - ip s) ∧
        trace_ips (stdout s') =
          trace_ips (stdout s) ++
          (if debug then seq (ip s) (fuel `min` (length ops - ip s)) else []).
Proof.
  revert s. induction fuel as [|fuel IH]; intros s Hwf Hle Hop Hnb Hfit Hsuf.
  - simpl. exists s. destruct (Nat.ltb_spec (ip s) (length ops)) as [Hlt|Hge].
    + destruct (Nat.ltb_spec 0 (length ops - ip s)); [|lia].
      split; [done|]. split; [lia|]. destruct debug; by rewrite app_nil_r.
    + destruct (Nat.ltb_spec 0 (length ops - ip s)); [lia|].
      split; [done|]. split; [lia|]. destruct debug; by rewrite app_nil_r.
  - simpl Batch.loop. destruct (Nat.ltb_spec (ip s) (length ops)) as [Hlt|Hge].
    + destruct (lookup_lt_is_Some_2 ops (ip s) Hlt) as [[c n] Hc].
      rewrite (drop_S _ _ _ Hc) in Hop, Hnb, Hfit, Hsuf.
      cbn [fmap list_fmap forallb fst] in Hop, Hnb, Hfit, Hsuf.
      apply andb_true_iff in Hnb as [Hnb Hnb'].
      apply andb_true_iff in Hop as [Hop Hop'].
      apply andb_true_iff in Hfit as [Hfit Hfit'].
      destruct (batch_body_straight ops jt debug c n _ s Hwf Hc Hop Hnb Hfit Hsuf)
        as (s1 & -> & Hwf1 & Hip & Hsuf1 & Htr).
      rewrite <- Hip in Hnb', Hop', Hfit', Hsuf1.
      destruct (IH s1 Hwf1 ltac:(lia) Hop' Hnb' Hfit' Hsuf1)
        as (s' & -> & Hip' & Htr').
      exists s'. rewrite Hip in *.
      replace (S fuel <? length ops - ip s) with (fuel <? length ops - S (ip s)).
      2:{ destruct (Nat.ltb_spec fuel (length ops - S (ip s)));
          destruct (Nat.ltb_spec (S fuel) (length ops - ip s)); lia || done. }
      split; [done|]. split; [lia|]. rewrite Htr', Htr, <- app_assoc. f_equal.
      destruct debug; [|done].
      replace (S fuel `min` (length ops - ip s))
        with (S (fuel `min` (length ops - S (ip s)))) by lia. done.
    + exists s. destruct (Nat.ltb_spec (S fuel) (length ops - ip s)); [lia|].
      split; [done|]. split; [lia|].
      replace (S fuel `min` (length ops - ip s)) with 0 by lia.
      destruct debug; by rewrite app_nil_r.
Qed.

Lemma depth_no_bracket (code : list ascii) (d : nat) :
  forallb no_bracket code = true → depth code d = Some d.
Proof.
  induction code as [|c code IH]; [done|]. simpl. unfold no_bracket at 1.
  intros H. apply andb_true_iff in H as [H1 H2].
  apply andb_true_iff in H1 as [Ho Hc].
  destruct (c =? "[")%char; [done|]. destruct (c =? "]")%char; [done|]. by apply IH.
Qed.

Lemma build_jump_table_no_bracket (code : list ascii) :
  forallb no_bracket code = true → ∃ table, Simple.build_jump_table code = inr table.
Proof.
  intros H. apply build_jump_table_balanced. unfold balanced.
  by rewrite depth_no_bracket.
Qed.

End Straight.

(** ** Instructions of the encoder *)

Section Operators.

Lemma collapse_valid raw ops last count :
  Forall valid_op ops →
  (∀ l, last = Some l → is_operator l = true) →
  match Batch.collapse raw ops last count with
  | (ops', last', _) =>
      Forall valid_op ops' ∧ (∀ l, last' = Some l → is_operator l = true)
  end.
Proof.
  revert ops last count. induction raw as [|c raw IH]; intros ops last count Hops Hlast.
  - done.
  - simpl. destruct (is_operator c) eqn:Hc; simpl; [|by apply IH].
    destruct last as [l|].
    + destruct (c =? l)%char; [by apply IH|]. apply IH.
      * apply Forall_app. split; [done|]. apply Forall_singleton. by apply Hlast.
      * by intros ? [= <-].
    + apply IH; [done|]. by intros ? [= <-].
Qed.

Lemma parse_code_valid raw : Forall valid_op (Batch.parse_code raw).
Proof.
  unfold Batch.parse_code.
  pose proof (collapse_valid raw [] None 0 (Forall_nil_2 _) ltac:(done)) as H.
  destruct (Batch.collapse raw [] None 0) as [[ops [l|]] count]; destruct H as [H1 H2].
  - apply Forall_app. split; [done|]. apply Forall_singleton. by apply H2.
  - done.
Qed.

Lemma batch_dispatch_valid jt c n s :
  is_operator c = true →
  is_runtime_error
    (match (Batch.dispatch jt c n s).1 with inl e => Raised e | inr _ => Finished end)
  = false.
Proof.
  unfold is_operator, Batch.dispatch. simpl.
  case_cmd; try done; intros _;
    exec; repeat case_match; simplify_eq/=; done.
Qed.

Lemma batch_body_valid ops jt debug s :
  Forall valid_op ops →
  is_runtime_error
    (match (Batch.body ops jt debug s).1 with inl e => Raised e | inr _ => Finished end)
  = false.
Proof.
  intros Hops. unfold Batch.body, bind at 1, get_ip.
  destruct (ops !! ip s) as [[c n]|] eqn:Hc; [|done].
  pose proof (Forall_lookup_1 _ _ _ _ Hops Hc) as Hv.
  pose proof (batch_dispatch_valid jt c n s Hv) as H.
  unfold bind at 1. destruct (Batch.dispatch jt c n s) as [[e|[|]] s']; simpl in *; [done..|].
  destruct debug; exec; repeat case_match; simplify_eq/=; done.
Qed.

Lemma batch_loop_valid ops jt debug fuel s :
  Forall valid_op ops →
  is_runtime_error (Batch.loop ops jt debug fuel s).1 = false.
Proof.
  intros Hops. revert s. induction fuel as [|fuel IH]; intros s; simpl.
  - by destruct (ip s <? length ops)%nat.
  - destruct (ip s <? length ops)%nat; [|done].
    pose proof (batch_body_valid ops jt debug s Hops) as H.
    destruct (Batch.body ops jt debug s) as [[e|[]] s']; [done|apply IH].
Qed.

End Operators.

(** ** Debug lines *)

Section Debug.

Lemma silent_app (a b : list out_item) : silent (a ++ b) = silent a ++ silent b.
Proof. apply List.filter_app. Qed.

Lemma silent_chars (n : nat) (v : Z) : silent (replicate n (Chr v)) = replicate n (Chr v).
Proof. induction n as [|n IH]; [done|]. simpl. f_equal. exact IH. Qed.

Lemma simple_dispatch_erase jt c s :
  Simple.dispatch jt c (erase s) =
  ((Simple.dispatch jt c s).1, erase (Simple.dispatch jt c s).2).
Proof.
  unfold Simple.dispatch.
  case_cmd; unfold erase; exec; simpl; repeat case_match; simplify_eq/=;
    rewrite ?silent_app; try done; congruence.
Qed.

Lemma batch_dispatch_erase jt c n s :
  Batch.dispatch jt c n (erase s) =
  ((Batch.dispatch jt c n s).1, erase (Batch.dispatch jt c n s).2).
Proof.
  unfold Batch.dispatch.
  case_cmd; unfold erase; exec; simpl; repeat case_match; simplify_eq/=;
    rewrite ?silent_app, ?silent_chars; try done; congruence.
Qed.

Lemma simple_body_erase code jt s :
  wf s →
  Simple.body code jt false (erase s) =
  ((Simple.body code jt true s).1, erase (Simple.body code jt true s).2).
Proof.
  intros Hwf. unfold Simple.body. cbv [bind get_ip].
  change (ip (erase s)) with (ip s).
  destruct (code !! ip s) as [c|]; [|done].
  rewrite simple_dispatch_erase.
  pose proof (simple_dispatch_wf jt c  s Hwf) as Hwf1.
  destruct (Simple.dispatch jt c s) as [[e|[|]] s1]; simpl in *; [done..|].
  destruct (getitem_wf _ _ Hwf1) as (v & Hg & _).
  exec. simpl. rewrite Hg. simpl. unfold erase. simpl.
  by rewrite silent_app, app_nil_r.
Qed.

Lemma batch_body_erase ops jt s :
  wf s →
  Batch.body ops jt false (erase s) =
  ((Batch.body ops jt true s).1, erase (Batch.body ops jt true s).2).
Proof.
  intros Hwf. unfold Batch.body. cbv [bind get_ip].
  change (ip (erase s)) with (ip s).
  destruct (ops !! ip s) as [[c n]|]; [|done].
  rewrite batch_dispatch_erase.
  pose proof (batch_dispatch_wf jt c n s Hwf) as Hwf1.
  destruct (Batch.dispatch jt c n s) as [[e|[|]] s1]; simpl in *; [done..|].
  destruct (getitem_wf _ _ Hwf1) as (v & Hg & _).
  exec. simpl. rewrite Hg. simpl. unfold erase. simpl.
  by rewrite silent_app, app_nil_r.
Qed.

Lemma simple_loop_erase code jt fuel s :
  wf s →
  Simple.loop code jt false fuel (erase s) =
  ((Simple.loop code jt true fuel s).1, erase (Simple.loop code jt true fuel s).2).
Proof.
  revert s. induction fuel as [|fuel IH]; intros s Hwf; simpl.
  - by destruct (ip s <? length code)%nat.
  - destruct (ip s <? length code)%nat; [|done].
    rewrite simple_body_erase by done.
    pose proof (simple_body_wf code jt true s Hwf) as Hwf1.
    destruct (Simple.body code jt true s) as [[e|[]] s1]; simpl in *; [done|].
    by apply IH.
Qed.

Lemma batch_loop_erase ops jt fuel s :
  wf s →
  Batch.loop ops jt false fuel (erase s) =
  ((Batch.loop ops jt true fuel s).1, erase (Batch.loop ops jt true fuel s).2).
Proof.
  revert s. induction fuel as [|fuel IH]; intros s Hwf; simpl.
  - by destruct (ip s <? length ops)%nat.
  - destruct (ip s <? length ops)%nat; [|done].
    rewrite batch_body_erase by done.
    pose proof (batch_body_wf ops jt true s Hwf) as Hwf1.
    destruct (Batch.body ops jt true s) as [[e|[]] s1]; simpl in *; [done|].
    by apply IH.
Qed.

(** The debug lines are the only difference between a run with and a run
    without [debug]. *)
Lemma simple_run_erase code lines fuel :
  Simple.run false code lines fuel =
  ((Simple.run true code lines fuel).1, erase (Simple.run true code lines fuel).2).
Proof.
  unfold Simple.run. destruct (Simple.build_jump_table code); [done|].
  apply (simple_loop_erase code _ fuel (initial lines)), wf_initial.
Qed.

Lemma batch_run_erase ops lines fuel :
  Batch.run false ops lines fuel =
  ((Batch.run true ops lines fuel).1, erase (Batch.run true ops lines fuel).2).
Proof.
  unfold Batch.run. destruct (Batch.build_jump_table ops); [done|].
  apply (batch_loop_erase ops _ fuel (initial lines)), wf_initial.
Qed.

End Debug.

(** ** Wrap-around of the tape pointer and of the cells *)

Section Wrap.

Lemma cell_wf (s : state) :
  wf s → getitem (tape s) (ptr s) = Some (cell s) ∧ 0 <= cell s < 256.
Proof.
  intros Hwf. destruct (getitem_wf _ _ Hwf) as (v & Hg & Hl & Hv).
  unfold cell. rewrite Hl. done.
Qed.

Lemma with_cell_wf (s : state) (v : Z) :
  wf s → 0 <= v < 256 → wf (with_cell s v) ∧ cell (with_cell s v) = v.
Proof.
  intros Hwf Hv. destruct (setitem_wf _ _ v Hwf Hv) as [_ Hwf']. split; [done|].
  unfold cell, with_cell. simpl. rewrite list_lookup_insert_eq; [done|].
  destruct Hwf as (Hlen & Hp & _). lia.
Qed.

Lemma with_cell_same (s : state) : wf s → with_cell s (cell s) = s.
Proof.
  intros Hwf. destruct (getitem_wf _ _ Hwf) as (v & _ & Hl & _).
  unfold with_cell, cell. rewrite Hl. simpl. rewrite list_insert_id by done.
  by destruct s.
Qed.

Lemma with_cell_twice (s : state) (v w : Z) :
  with_cell (with_cell s v) w = with_cell s w.
Proof. unfold with_cell. simpl. by rewrite list_insert_insert_eq. Qed.

(** [+] on a well-formed state. *)
Lemma simple_plus jt (s : state) :
  wf s → Simple.dispatch jt "+" s = (inr false, with_cell s (uint8 (cell s + 1))).
Proof.
  intros Hwf. destruct (cell_wf s Hwf) as [Hg _].
  unfold Simple.dispatch. simpl. exec. rewrite Hg.
  by destruct (setitem_wf _ _ (uint8 (cell s + 1)) Hwf (uint8_range _)) as [-> _].
Qed.

Lemma simple_plus_iter jt (n : nat) (s : state) :
  wf s →
  Nat.iter n (fun s => (Simple.dispatch jt "+" s).2) s =
  with_cell s (uint8 (cell s + Z.of_nat n)).
Proof.
  intros Hwf. induction n as [|n IH].
  - simpl. rewrite Z.add_0_r, uint8_small by (by apply cell_wf).
    by rewrite with_cell_same.
  - rewrite Nat.iter_succ, IH.
    destruct (with_cell_wf s (uint8 (cell s + Z.of_nat n)) Hwf (uint8_range _))
      as [Hwf' Hc].
    rewrite simple_plus by done. simpl. rewrite with_cell_twice, Hc. f_equal.
    unfold uint8. rewrite Zplus_mod_idemp_l. f_equal. lia.
Qed.

Lemma simple_plus_256 jt (s : state) :
  wf s → Nat.iter 256 (fun s => (Simple.dispatch jt "+" s).2) s = s.
Proof.
  intros Hwf. rewrite simple_plus_iter by done.
  replace (uint8 (cell s + Z.of_nat 256)) with (cell s); [by apply with_cell_same|].
  unfold uint8. change (Z.of_nat 256) with (1 * 256).
  rewrite Z_mod_plus_full. symmetry. apply Z.mod_small. by apply cell_wf.
Qed.

Lemma simple_left_from_0 code jt debug (s : state) :
  wf s → ptr s = 0 → code !! ip s = Some "<"%char →
  ptr (Simple.body code jt debug s).2 = tape_length - 1.
Proof.
  intros Hwf Hp Hc. unfold Simple.body. cbv [bind get_ip]. rewrite Hc.
  pose proof (simple_dispatch_wf jt "<" s Hwf) as Hwf1.
  assert (ptr (Simple.dispatch jt "<" s).2 = tape_length - 1) as Hp1.
  { unfold Simple.dispatch. simpl. exec. simpl.
    destruct Hwf as (-> & _ & _). rewrite Hp, Z2Nat.id by done. reflexivity. }
  assert ((Simple.dispatch jt "<" s).1 = inr false) as Hr by done.
  destruct (Simple.dispatch jt "<" s) as [r s1]. simpl in *. subst r.
  destruct (getitem_wf _ _ Hwf1) as (v & Hg & _).
  destruct debug; exec; rewrite ?Hg; done.
Qed.

End Wrap.

(** ** The run-length encoder *)

Section Encoder.

Lemma expand_app (a b : list (ascii * Z)) : expand (a ++ b) = expand a ++ expand b.
Proof. apply flat_map_app. Qed.

Lemma expand_snoc_succ (ops : list (ascii * Z)) (c : ascii) (n : Z) :
  0 <= n → expand (ops ++ [(c, n + 1)]) = expand (ops ++ [(c, n)]) ++ [c].
Proof.
  intros Hn. rewrite !expand_app, <- app_assoc. f_equal. unfold expand. simpl.
  rewrite !app_nil_r. replace (Z.to_nat (n + 1)) with (Z.to_nat n + 1)%nat by lia.
  rewrite replicate_add. done.
Qed.

Lemma collapse_expand raw ops last count :
  1 <= count ∨ last = None →
  Forall (fun op => 1 <= op.2) ops →
  match Batch.collapse raw ops last count with
  | (ops', last', count') =>
      expand (ops' ++ pending last' count') =
        expand (ops ++ pending last count) ++ Simple.parse_code raw ∧
      Forall (fun op => 1 <= op.2) (ops' ++ pending last' count')
  end.
Proof.
  revert ops last count. induction raw as [|c raw IH]; intros ops last count Hc Hops.
  - simpl. rewrite app_nil_r. split; [done|]. apply Forall_app. split; [done|].
    destruct last; simpl; [|done]. apply Forall_singleton. simpl.
    by destruct Hc.
  - simpl. unfold Simple.parse_code. simpl. fold (Simple.parse_code raw).
    destruct (is_operator c) eqn:Hop; simpl; [|by apply IH].
    destruct last as [l|]; simpl.
    + destruct Hc as [Hc|?]; [|done].
      destruct (Ascii.eqb_spec c l) as [->|Hne].
      * specialize (IH ops (Some l) (count + 1) ltac:(left; lia) Hops).
        destruct (Batch.collapse raw ops (Some l) (count + 1)) as [[ops' last'] count'].
        destruct IH as [-> IH2]. split; [|done]. simpl.
        rewrite expand_snoc_succ by lia. by rewrite <- app_assoc.
      * specialize (IH (ops ++ [(l, count)]) (Some c) 1 ltac:(left; lia)).
        destruct (Batch.collapse raw (ops ++ [(l, count)]) (Some c) 1)
          as [[ops' last'] count'].
        destruct IH as [-> IH2].
        { apply Forall_app. split; [done|]. by apply Forall_singleton. }
        split; [|done]. simpl. rewrite (expand_app _ [(c, 1)]).
        by rewrite <- app_assoc.
    + specialize (IH ops (Some c) 1 ltac:(left; lia) Hops).
      destruct (Batch.collapse raw ops (Some c) 1) as [[ops' last'] count'].
      destruct IH as [-> IH2]. split; [|done]. simpl.
      rewrite app_nil_r, (expand_app _ [(c, 1)]). by rewrite <- app_assoc.
Qed.

(** The encoder loses nothing: writing each instruction [(op, n)] as [n]
    times [op] gives the filtered text back, and every count is at least
    1. *)
Lemma parse_code_expand (raw : list ascii) :
  expand (Batch.parse_code raw) = Simple.parse_code raw ∧
  Forall (fun op => 1 <= op.2) (Batch.parse_code raw).
Proof.
  unfold Batch.parse_code.
  pose proof (collapse_expand raw [] None 0 ltac:(by right) (Forall_nil_2 _)) as H.
  destruct (Batch.collapse raw [] None 0) as [[ops [l|]] count]; simpl in H;
    rewrite ?app_nil_r in H; done.
Qed.

(** [,] of [01_simple.py] on a well-formed state: it takes one line and,
    when the first character is a byte, stores its code. *)
Lemma simple_comma jt (s : state) (c : char) (line : list char)
    (rest : list (list char)) :
  wf s → stdin s = (c :: line) :: rest → ord c < 256 →
  Simple.dispatch jt "," s =
    (inr false,
     {| ip := ip s; ptr := ptr s;
        tape := <[Z.to_nat (ptr s) := ord c]> (tape s);
        stdin := rest; stdout := stdout s |}).
Proof.
  intros Hwf Hin Hc. pose proof (ord_nonneg c) as Hc'.
  unfold Simple.dispatch. simpl. exec.
  rewrite Hin, (proj2 (byte_spec (ord c))) by lia. simpl.
  by destruct (setitem_wf _ _ (ord c) Hwf ltac:(lia)) as [-> _].
Qed.

(** A [+] or a [-] of [02_batch.py] whose count is no byte raises, and
    leaves the state as it was. *)
Lemma batch_count_overflow jt (n : Z) (s : state) :
  wf s → ¬ 0 <= n < 256 →
  Batch.dispatch jt "+" n s = (inl OverflowError, s) ∧
  Batch.dispatch jt "-" n s = (inl OverflowError, s).
Proof.
  intros Hwf Hn. destruct (getitem_wf _ _ Hwf) as (v & Hg & _ & _).
  unfold Batch.dispatch. simpl. unfold bind, get_cell.
  by rewrite Hg, (np_uint8_overflow _ _ Hn).
Qed.

End Encoder.

(** ** The properties of the specification *)

Section Properties.

(** C7. When [build_jump_table] returns a table, the table is symmetric
    ([table[table[i]] == i] for every index [i] it holds), and the indices
    it holds are exactly the positions of the brackets in the instruction
    sequence; in [01_simple.py] and in [02_batch.py]. *)
Theorem jump_table_symmetric :
  (∀ (code : list ascii) (table : gmap nat nat),
     Simple.build_jump_table code = inr table →
     (∀ i j : nat, table !! i = Some j → table !! j = Some i) ∧
     (∀ i : nat, is_Some (table !! i) ↔ bracket_at code i)) ∧
  (∀ (ops : list (ascii * Z)) (table : gmap nat nat),
     Batch.build_jump_table ops = inr table →
     (∀ i j : nat, table !! i = Some j → table !! j = Some i) ∧
     (∀ i : nat, is_Some (table !! i) ↔ bracket_at ops.*1 i)).
Proof.
  split.
  - intros code table H. pose proof (build_jump_table_spec code) as Hs.
    rewrite H in Hs. apply Hs.
  - intros ops table H. rewrite batch_build_jump_table_fst in H.
    pose proof (build_jump_table_spec ops.*1) as Hs. rewrite H in Hs. apply Hs.
Qed.

Lemma jump_table_symmetric_witness :
  ∃ table : gmap nat nat,
    Simple.build_jump_table (str "[-[+]>[]]") = inr table ∧
    (∀ i j : nat, table !! i = Some j → table !! j = Some i) ∧
    (∀ i : nat, is_Some (table !! i) ↔ bracket_at (str "[-[+]>[]]") i).
Proof.
  destruct (Simple.build_jump_table (str "[-[+]>[]]")) as [e|table] eqn:E.
  - vm_compute in E. discriminate E.
  - exists table. split; [reflexivity|].
    exact (proj1 jump_table_symmetric (str "[-[+]>[]]") table E).
Defined.

(** C4. [build_jump_table] fails exactly on unbalanced brackets, and [run]
    then raises before the loop: the state is the initial one, with no
    output and no input taken.  An unmatched [[]] is reported at its own
    index, where the depth is 0; an unmatched [[[]] is reported at the
    index of the last one that stays open, after which the code is
    balanced.  So "]" fails with UnmatchedCloseBracket 0, "[" and "[[]"
    with UnmatchedOpenBracket 0.  In [02_batch.py] the instruction
    sequences are given with one instruction per bracket. *)
Theorem jump_table_rejects_unbalanced :
  (∀ code : list ascii,
     balanced code = true ↔ ∃ table, Simple.build_jump_table code = inr table) ∧
  (∀ ops : list (ascii * Z),
     balanced ops.*1 = true ↔ ∃ table, Batch.build_jump_table ops = inr table) ∧
  (∀ (code : list ascii) (debug : bool) (lines : list (list char)) (fuel : nat),
     balanced code = false →
     ∃ i : nat,
       (Simple.run debug code lines fuel =
          (Raised (UnmatchedCloseBracket i), initial lines) ∧
        code !! i = Some "]"%char ∧ depth (take i code) 0 = Some 0%nat) ∨
       (Simple.run debug code lines fuel =
          (Raised (UnmatchedOpenBracket i), initial lines) ∧
        code !! i = Some "["%char ∧ depth (drop (S i) code) 0 = Some 0%nat)) ∧
  (∀ (ops : list (ascii * Z)) (debug : bool) (lines : list (list char))
     (fuel : nat),
     balanced ops.*1 = false →
     ∃ i : nat,
       (Batch.run debug ops lines fuel =
          (Raised (UnmatchedCloseBracket i), initial lines) ∧
        ops.*1 !! i = Some "]"%char ∧ depth (take i ops.*1) 0 = Some 0%nat) ∨
       (Batch.run debug ops lines fuel =
          (Raised (UnmatchedOpenBracket i), initial lines) ∧
        ops.*1 !! i = Some "["%char ∧
        depth (drop (S i) ops.*1) 0 = Some 0%nat)) ∧
  (∀ (debug : bool) (lines : list (list char)) (fuel : nat),
     Simple.run debug (str "]") lines fuel =
       (Raised (UnmatchedCloseBracket 0), initial lines) ∧
     Simple.run debug (str "[") lines fuel =
       (Raised (UnmatchedOpenBracket 0), initial lines) ∧
     Simple.run debug (str "[[]") lines fuel =
       (Raised (UnmatchedOpenBracket 0), initial lines) ∧
     Batch.run debug [("]"%char, 1)] lines fuel =
       (Raised (UnmatchedCloseBracket 0), initial lines) ∧
     Batch.run debug [("["%char, 1)] lines fuel =
       (Raised (UnmatchedOpenBracket 0), initial lines) ∧
     Batch.run debug [("["%char, 1); ("["%char, 1); ("]"%char, 1)] lines fuel =
       (Raised (UnmatchedOpenBracket 0), initial lines)) ∧
  (∀ lines : list (list char),
     ip (initial lines) = 0%nat ∧ stdin (initial lines) = lines ∧
     stdout (initial lines) = []).
Proof.
  assert (∀ code : list ascii, balanced code = false →
    ∃ i : nat,
      (Simple.build_jump_table code = inl (UnmatchedCloseBracket i) ∧
       code !! i = Some "]"%char ∧ depth (take i code) 0 = Some 0%nat) ∨
      (Simple.build_jump_table code = inl (UnmatchedOpenBracket i) ∧
       code !! i = Some "["%char ∧ depth (drop (S i) code) 0 = Some 0%nat)) as Hfail.
  { intros code Hb. pose proof (build_jump_table_spec code) as Hs.
    destruct (Simple.build_jump_table code) as [e|table].
    - destruct e as [i|i| | | | |]; try done; exists i.
      + left. by destruct Hs as (? & ? & _).
      + right. by destruct Hs as (? & ? & _).
    - destruct Hs as [Hd _]. unfold balanced in Hb. by rewrite Hd in Hb. }
  split; [apply build_jump_table_balanced|].
  split.
  { intros ops. rewrite batch_build_jump_table_fst. apply build_jump_table_balanced. }
  split.
  { intros code debug lines fuel Hb. destruct (Hfail code Hb) as [i [[H ?]|[H ?]]];
      exists i; [left|right]; (split; [|done]); unfold Simple.run; by rewrite H. }
  split.
  { intros ops debug lines fuel Hb. destruct (Hfail _ Hb) as [i [[H ?]|[H ?]]];
      exists i; [left|right]; (split; [|done]); unfold Batch.run;
      by rewrite batch_build_jump_table_fst, H. }
  split; [|done].
  intros debug lines fuel. by split_and!.
Qed.

Lemma jump_table_rejects_unbalanced_witness :
  balanced (str "+[[-]") = false ∧
  ∃ i : nat,
    (Simple.run false (str "+[[-]") [] 10 =
       (Raised (UnmatchedCloseBracket i), initial []) ∧
     str "+[[-]" !! i = Some "]"%char ∧
     depth (take i (str "+[[-]")) 0 = Some 0%nat) ∨
    (Simple.run false (str "+[[-]") [] 10 =
       (Raised (UnmatchedOpenBracket i), initial []) ∧
     str "+[[-]" !! i = Some "["%char ∧
     depth (drop (S i) (str "+[[-]")) 0 = Some 0%nat).
Proof.
  split; [reflexivity|].
  apply (proj1 (proj2 (proj2 jump_table_rejects_unbalanced))).
  reflexivity.
Defined.

(** C6. The tape wraps: from [ptr = 0], one [<] sets [ptr] to
    [tape_length - 1 = 29999]; 256 times [+] on a cell give the cell its
    value back, so a cell at 0 returns to 0; and in every state that a run
    reaches the tape has its [tape_length] cells, [0 <= ptr < tape_length]
    and every cell is in [0, 256). *)
Theorem tape_wraps :
  (∀ (code : list ascii) (jt : gmap nat nat) (debug : bool) (s : state),
     wf s → ptr s = 0 → code !! ip s = Some "<"%char →
     ptr (Simple.body code jt debug s).2 = tape_length - 1) ∧
  tape_length - 1 = 29999 ∧
  (∀ lines : list (list char),
     (Simple.run false (str "<") lines 1).1 = Finished ∧
     ptr (Simple.run false (str "<") lines 1).2 = 29999) ∧
  (∀ (jt : gmap nat nat) (s : state),
     wf s → Nat.iter 256 (fun s => (Simple.dispatch jt "+" s).2) s = s) ∧
  (∀ lines : list (list char),
     tape (Simple.run false (replicate 255 "+"%char) lines 255).2 !! 0%nat
       = Some 255 ∧
     (Simple.run false (replicate 256 "+"%char) lines 256).1 = Finished ∧
     tape (Simple.run false (replicate 256 "+"%char) lines 256).2 !! 0%nat
       = Some 0) ∧
  (∀ (debug : bool) (code : list ascii) (lines : list (list char))
     (fuel : nat),
     let s := (Simple.run debug code lines fuel).2 in
     length (tape s) = Z.to_nat tape_length ∧ 0 <= ptr s < tape_length ∧
     ∀ (i : nat) (v : Z), tape s !! i = Some v → 0 <= v < 256) ∧
  (∀ (debug : bool) (ops : list (ascii * Z)) (lines : list (list char))
     (fuel : nat),
     let s := (Batch.run debug ops lines fuel).2 in
     length (tape s) = Z.to_nat tape_length ∧ 0 <= ptr s < tape_length ∧
     ∀ (i : nat) (v : Z), tape s !! i = Some v → 0 <= v < 256).
Proof.
  assert (∀ s : state, wf s →
    length (tape s) = Z.to_nat tape_length ∧ 0 <= ptr s < tape_length ∧
    ∀ (i : nat) (v : Z), tape s !! i = Some v → 0 <= v < 256) as Hwf.
  { intros s (Hlen & Hp & Hall). split; [done|]. split; [done|].
    intros i v Hv. by apply (Forall_lookup_1 _ _ _ _ Hall Hv). }
  split; [apply simple_left_from_0|].
  split; [done|].
  split; [intros lines; by vm_compute|].
  split; [apply simple_plus_256|].
  split; [intros lines; by vm_compute|].
  split.
  - intros debug code lines fuel. apply Hwf, simple_run_wf.
  - intros debug ops lines fuel. apply Hwf, batch_run_wf.
Qed.

Lemma tape_wraps_witness :
  wf (initial []) ∧ ptr (initial []) = 0 ∧
  str "<" !! ip (initial []) = Some "<"%char ∧
  ptr (Simple.body (str "<") ∅ false (initial [])).2 = tape_length - 1 ∧
  Nat.iter 256 (fun s => (Simple.dispatch ∅ "+" s).2) (initial []) = initial [].
Proof.
  split; [apply wf_initial|]. split; [reflexivity|]. split; [reflexivity|].
  split.
  - apply (proj1 tape_wraps (str "<") ∅ false (initial []));
      [apply wf_initial|reflexivity|reflexivity].
  - apply (proj1 (proj2 (proj2 (proj2 tape_wraps))) ∅ (initial [])), wf_initial.
Defined.

(** C8. The program "++>+++++[<+>-]<." runs to its end from the initial
    state, whatever the input; at the end the first cell holds 7 and the
    output is the one character of code 7. *)
Theorem example_program_prints_7 :
  ∀ (lines : list (list char)) (extra : nat),
    let r := Simple.run false (str "++>+++++[<+>-]<.") lines (40 + extra) in
    r.1 = Finished ∧ tape r.2 !! 0%nat = Some 7 ∧ stdout r.2 = [Chr 7] ∧
    stdin r.2 = lines.
Proof.
  intros lines extra. rewrite simple_run_fuel; [by vm_compute|].
  vm_compute. discriminate.
Qed.

(** C9. On the instructions that [parse_code] of [02_batch.py] produces,
    each of which has one of the eight operators, [run] never reaches the
    default arm of its [match]: it does not raise [RuntimeError]. *)
Theorem encoded_program_never_invalid :
  ∀ (raw : list ascii) (debug : bool) (lines : list (list char)) (fuel : nat),
    Forall valid_op (Batch.parse_code raw) ∧
    is_runtime_error (Batch.run debug (Batch.parse_code raw) lines fuel).1
      = false.
Proof.
  intros raw debug lines fuel. split; [apply parse_code_valid|].
  unfold Batch.run.
  pose proof (build_jump_table_spec (Batch.parse_code raw).*1) as Hs.
  rewrite <- batch_build_jump_table_fst in Hs.
  destruct (Batch.build_jump_table (Batch.parse_code raw)) as [e|jt].
  - by destruct e.
  - apply batch_loop_valid, parse_code_valid.
Qed.

(** C10. On an instruction sequence without brackets, with an input that
    has, for each [,], a line whose first character is a byte, the loop of
    [01_simple.py] ends after as many iterations as there are instructions:
    the k-th iteration dispatches instruction k (with less fuel than
    instructions, the run stops at the instruction whose index is the
    fuel), and the debug lines name each index once, in order.  The loop of
    [02_batch.py] does the same when the count of every [+] and [-] is in
    0..255.  It does not on the 256 [+] that [parse_code] encodes as
    [("+", 256)]: [tape[ptr] += 256] raises [OverflowError] in the first
    iteration, and the run ends there, in the initial state, while
    [01_simple.py] runs the 256 [+] to the end. *)
Theorem bracket_free_code_runs_once_through :
  (∀ (code : list ascii) (debug : bool) (lines : list (list char))
     (fuel : nat),
     forallb no_bracket code = true → sufficient code lines = true →
     ∃ s : state,
       Simple.run debug code lines fuel =
         (if (fuel <? length code)%nat then OutOfFuel else Finished, s) ∧
       ip s = (fuel `min` length code)%nat ∧
       trace_ips (stdout s) =
         if debug then seq 0 (fuel `min` length code) else []) ∧
  (∀ (ops : list (ascii * Z)) (debug : bool) (lines : list (list char))
     (fuel : nat),
     forallb is_operator ops.*1 = true →
     forallb no_bracket ops.*1 = true →
     forallb count_fits ops = true → sufficient ops.*1 lines = true →
     ∃ s : state,
       Batch.run debug ops lines fuel =
         (if (fuel <? length ops)%nat then OutOfFuel else Finished, s) ∧
       ip s = (fuel `min` length ops)%nat ∧
       trace_ips (stdout s) =
         if debug then seq 0 (fuel `min` length ops) else []) ∧
  (∀ (debug : bool) (lines : list (list char)) (fuel : nat),
     Batch.parse_code (replicate 256 "+"%char) = [("+"%char, 256)] ∧
     forallb no_bracket [("+"%char, 256)].*1 = true ∧
     sufficient [("+"%char, 256)].*1 lines = true ∧
     Batch.run debug [("+"%char, 256)] lines (S fuel) =
       (Raised OverflowError, initial lines) ∧
     (Simple.run false (replicate 256 "+"%char) lines 256).1 = Finished ∧
     ip (Simple.run false (replicate 256 "+"%char) lines 256).2 = 256%nat).
Proof.
  split; [|split].
  - intros code debug lines fuel Hnb Hsuf.
    destruct (build_jump_table_no_bracket code Hnb) as [jt Hjt].
    unfold Simple.run. rewrite Hjt.
    destruct (simple_loop_straight code jt debug fuel (initial lines))
      as (s & Hs & Hip & Htr); [apply wf_initial|simpl; lia|done..|].
    exists s. simpl in *. rewrite Nat.sub_0_r in *. done.
  - intros ops debug lines fuel Hop Hnb Hfit Hsuf.
    destruct (build_jump_table_no_bracket ops.*1 Hnb) as [jt Hjt].
    unfold Batch.run. rewrite batch_build_jump_table_fst, Hjt.
    destruct (batch_loop_straight ops jt debug fuel (initial lines))
      as (s & Hs & Hip & Htr); [apply wf_initial|simpl; lia|done..|].
    exists s. simpl in *. rewrite Nat.sub_0_r in *. done.
  - intros debug lines fuel.
    do 3 (split; [by vm_compute|]).
    split; [|by vm_compute].
    unfold Batch.run. change (Batch.build_jump_table [("+"%char, 256)]) with
      (inr (B := gmap nat nat) (A := exn) ∅).
    cbn [Batch.loop]. change (ip (initial lines) <? 1)%nat with true.
    cbv beta iota. unfold Batch.body, bind at 1, get_ip.
    change ([("+"%char, 256)] !! ip (initial lines)) with (Some ("+"%char, 256)).
    cbv beta iota. unfold bind at 1.
    by rewrite (proj1 (batch_count_overflow ∅ 256 (initial lines)
                         (wf_initial lines) ltac:(lia))).
Qed.

Lemma bracket_free_code_runs_once_through_witness :
  (forallb no_bracket (str "+>,.-") = true ∧
   sufficient (str "+>,.-") [line "A"] = true ∧
   ∃ s : state,
     Simple.run true (str "+>,.-") [line "A"] 5%nat = (Finished, s) ∧
     ip s = 5%nat ∧ trace_ips (stdout s) = [0; 1; 2; 3; 4]%nat) ∧
  (forallb is_operator (Batch.parse_code (str "++>,..-")).*1 = true ∧
   forallb no_bracket (Batch.parse_code (str "++>,..-")).*1 = true ∧
   forallb count_fits (Batch.parse_code (str "++>,..-")) = true ∧
   sufficient (Batch.parse_code (str "++>,..-")).*1 [line "A"] = true ∧
   ∃ s : state,
     Batch.run true (Batch.parse_code (str "++>,..-")) [line "A"] 5%nat
       = (Finished, s) ∧
     ip s = 5%nat ∧ trace_ips (stdout s) = [0; 1; 2; 3; 4]%nat).
Proof.
  split.
  - split; [reflexivity|]. split; [reflexivity|].
    apply (proj1 bracket_free_code_runs_once_through
             (str "+>,.-") true [line "A"] 5%nat); reflexivity.
  - do 4 (split; [reflexivity|]).
    apply (proj1 (proj2 bracket_free_code_runs_once_through)
             (Batch.parse_code (str "++>,..-")) true [line "A"] 5%nat);
      reflexivity.
Defined.

(** C1. The program ",,." on the input lines "A" and "B": with one
    instruction per character the two [,] take both lines and [.] writes
    "B"; its encoding is [(",", 2); (".", 1)], for which [run] of
    [02_batch.py] takes one line and writes "A".  The outputs of the two
    modes differ. *)
Theorem encoded_comma_run_changes_output :
  let lines := [line "A"; line "B"] in
  let direct := Simple.run false (Simple.parse_code (str ",,.")) lines 3 in
  let encoded := Batch.run false (Batch.parse_code (str ",,.")) lines 2 in
  Batch.parse_code (str ",,.") = [(","%char, 2); ("."%char, 1)] ∧
  direct.1 = Finished ∧ chars (stdout direct.2) = [ord "B"] ∧
  stdin direct.2 = [] ∧
  encoded.1 = Finished ∧ chars (stdout encoded.2) = [ord "A"] ∧
  stdin encoded.2 = [line "B"].
Proof. by vm_compute. Qed.

(** C2. [parse_code] of [02_batch.py] merges consecutive brackets like any
    other operator: "[[" becomes the one instruction [("[", 2)].  The text
    "[[]", which is unbalanced, is encoded as two instructions that
    [build_jump_table] accepts; the text "[[-]>]", which is balanced, is
    encoded as a sequence that [build_jump_table] rejects; and
    "+>[[-]>[-]]<." writes another character once encoded. *)
Theorem encoder_merges_brackets :
  Batch.parse_code (str "[[") = [("["%char, 2)] ∧
  Batch.parse_code (str "]]") = [("]"%char, 2)] ∧
  Batch.parse_code (str "[[]") = [("["%char, 2); ("]"%char, 1)] ∧
  balanced (Simple.parse_code (str "[[]")) = false ∧
  (Batch.run false (Batch.parse_code (str "[[]")) [] 2).1 = Finished ∧
  balanced (Simple.parse_code (str "[[-]>]")) = true ∧
  (Batch.run false (Batch.parse_code (str "[[-]>]")) [] 0).1
    = Raised (UnmatchedCloseBracket 4) ∧
  stdout (Simple.run false (Simple.parse_code (str "+>[[-]>[-]]<.")) [] 13).2
    = [Chr 1] ∧
  stdout (Batch.run false (Batch.parse_code (str "+>[[-]>[-]]<.")) [] 11).2
    = [Chr 0].
Proof. by vm_compute. Qed.

(** C3. In [02_batch.py] the arm of [,] does not use the count: a [,]
    instruction of any count does what one [,] of [01_simple.py] does.
    With count 2 on the lines "A" and "B" it takes the line "A" only and
    the cell holds the code of "A"; two [,] of [01_simple.py] take both
    lines and the cell holds the code of "B". *)
Theorem comma_run_reads_one_line :
  (∀ (jt : gmap nat nat) (n : Z) (s : state),
     Batch.dispatch jt "," n s = Simple.dispatch jt "," s) ∧
  let lines := [line "A"; line "B"] in
  let encoded := Batch.run false [(","%char, 2)] lines 1 in
  let direct := Simple.run false (str ",,") lines 2 in
  encoded.1 = Finished ∧ stdin encoded.2 = [line "B"] ∧
  tape encoded.2 !! 0%nat = Some (ord "A") ∧
  direct.1 = Finished ∧ stdin direct.2 = [] ∧
  tape direct.2 !! 0%nat = Some (ord "B").
Proof. split; [done|by vm_compute]. Qed.

(** C5. With [debug], the program "[]" runs two iterations of the loop:
    the first executes [[]], which jumps, and prints no debug line (after
    it the run is at instruction 1 and the output is empty); the second
    executes [[]]] and prints its debug line.  One debug line for two
    executed instructions, in [01_simple.py] and in [02_batch.py].  The
    debug lines change nothing else: without them, the run with [debug] is
    the run without. *)
Theorem debug_line_skipped_on_jump :
  let first := Simple.run true (str "[]") [] 1 in
  let whole := Simple.run true (str "[]") [] 2 in
  let first' := Batch.run true (Batch.parse_code (str "[]")) [] 1 in
  let whole' := Batch.run true (Batch.parse_code (str "[]")) [] 2 in
  (first.1 = OutOfFuel ∧ ip first.2 = 1%nat ∧ stdout first.2 = []) ∧
  (whole.1 = Finished ∧ ip whole.2 = 2%nat ∧
   stdout whole.2 = [Trace 1 "]" 0 0]) ∧
  (first'.1 = OutOfFuel ∧ ip first'.2 = 1%nat ∧ stdout first'.2 = []) ∧
  (whole'.1 = Finished ∧ ip whole'.2 = 2%nat ∧
   stdout whole'.2 = [Trace 1 "]" 0 0]) ∧
  (∀ (code : list ascii) (lines : list (list char)) (fuel : nat),
     Simple.run false code lines fuel =
       ((Simple.run true code lines fuel).1,
        erase (Simple.run true code lines fuel).2)) ∧
  (∀ (ops : list (ascii * Z)) (lines : list (list char)) (fuel : nat),
     Batch.run false ops lines fuel =
       ((Batch.run true ops lines fuel).1,
        erase (Batch.run true ops lines fuel).2)).
Proof.
  do 4 (split; [by vm_compute|]).
  split; [apply simple_run_erase|apply batch_run_erase].
Qed.

End Properties.

(** ** [main.py] and [01_simple.py] *)

Section MainFile.

Lemma main_scan_simple (code : list ascii) (i : nat) table stack :
  Main.scan code i table stack = Simple.scan code i table stack.
Proof.
  revert i table stack. induction code as [|c code IH]; intros i table stack; [done|].
  simpl. destruct (c =? "[")%char; [apply IH|].
  destruct (c =? "]")%char; [|apply IH]. destruct stack; [done|apply IH].
Qed.

Lemma main_build_jump_table_simple (code : list ascii) :
  Main.build_jump_table code = Simple.build_jump_table code.
Proof.
  unfold Main.build_jump_table, Simple.build_jump_table.
  by rewrite main_scan_simple.
Qed.

(** On one of the eight operators the default arm of [main.py] is not
    taken, and the statement is the one of [01_simple.py]. *)
Lemma main_dispatch_simple jt (c : ascii) (s : state) :
  is_operator c = true → Main.dispatch jt c s = Simple.dispatch jt c s.
Proof.
  unfold is_operator, Main.dispatch, Simple.dispatch. simpl.
  case_cmd; done.
Qed.

Lemma main_body_simple code jt (s : state) :
  Forall (fun c => is_operator c = true) code →
  Main.body code jt s = Simple.body code jt false s.
Proof.
  intros Hops. unfold Main.body, Simple.body, Main.DEBUG. cbv [bind get_ip].
  destruct (code !! ip s) as [c|] eqn:Hc; [|done].
  by rewrite (main_dispatch_simple jt c s (Forall_lookup_1 _ _ _ _ Hops Hc)).
Qed.

Lemma main_loop_simple code jt fuel (s : state) :
  Forall (fun c => is_operator c = true) code →
  Main.loop code jt fuel s = Simple.loop code jt false fuel s.
Proof.
  intros Hops. revert s. induction fuel as [|fuel IH]; intros s; simpl; [done|].
  destruct (ip s <? length code)%nat; [|done].
  rewrite main_body_simple by done.
  destruct (Simple.body code jt false s) as [[e|[]] s']; [done|apply IH].
Qed.

Lemma simple_parse_code_operators (raw : list ascii) :
  Forall (fun c => is_operator c = true) (Simple.parse_code raw).
Proof.
  unfold Simple.parse_code. apply List.Forall_forall. intros c Hc.
  by apply List.filter_In in Hc as [_ Hc].
Qed.

End MainFile.

(** ** Brackets and their partners *)

Section Partners.
Local Open Scope nat_scope.

Lemma scan_match_pop code i table open_idx stack :
  code !! i = Some "]"%char →
  scan_inv code i table (open_idx :: stack) →
  scan_match code table →
  scan_match code (<[i := open_idx]> (<[open_idx := i]> table)).
Proof.
  intros Hc I M.
  assert (open_idx < i) as Hlt by (eapply scan_inv_lt_stack; [done|by left]).
  destruct (inv_open _ _ _ _ I 0 open_idx eq_refl) as [Ho Hd].
  assert (matching code open_idx i) as Hm by done.
  intros a b. destruct (decide (a = i)) as [->|Hai].
  { rewrite lookup_insert_eq. intros [= <-]. by right. }
  rewrite lookup_insert_ne by done.
  destruct (decide (a = open_idx)) as [->|Hao].
  { rewrite lookup_insert_eq. intros [= <-]. by left. }
  rewrite lookup_insert_ne by done. apply M.
Qed.

Lemma scan_match_spec (code rest : list ascii) (i : nat) table stack :
  i ≤ length code →
  drop i code = rest →
  scan_inv code i table stack →
  scan_match code table →
  match Simple.scan rest i table stack with
  | inr (table', _) => scan_match code table'
  | inl _ => True
  end.
Proof.
  revert i table stack.
  induction rest as [|c rest IH]; intros i table stack Hle Hd I M; [done|].
  assert (code !! i = Some c) as Hc.
  { rewrite <- (Nat.add_0_r i), <- lookup_drop, Hd. done. }
  assert (drop (S i) code = rest) as Hd'.
  { replace (S i) with (i + 1) by lia. rewrite <- drop_drop, Hd. done. }
  assert (S i ≤ length code) as Hle' by (by apply lookup_lt_Some in Hc).
  simpl. destruct (c =? "[")%char eqn:Ho.
  { apply Ascii.eqb_eq in Ho as ->. apply IH; [done..| |done].
    by apply scan_inv_push. }
  destruct (c =? "]")%char eqn:Hcl.
  - apply Ascii.eqb_eq in Hcl as ->. destruct stack as [|open_idx stack]; [done|].
    apply IH; [done..| |]; [by apply scan_inv_pop|by eapply scan_match_pop].
  - apply IH; [done..| |done]. by eapply scan_inv_skip.
Qed.

Lemma build_jump_table_matching (code : list ascii) (table : gmap nat nat) :
  Simple.build_jump_table code = inr table → scan_match code table.
Proof.
  unfold Simple.build_jump_table. intros H.
  pose proof (scan_match_spec code code 0 ∅ [] (Nat.le_0_l _) eq_refl
                (scan_inv_init code)) as Hs.
  destruct (Simple.scan code 0 ∅ []) as [e|[table' [|top stack]]]; [done| |done].
  injection H as <-. apply Hs. intros a b Hab. by rewrite lookup_empty in Hab.
Qed.

End Partners.

(** ** The two parsers *)

Section Parsers.

Lemma distinct_neighbours_snoc (xs : list (ascii * Z)) (l c : ascii) (n n' m : Z) :
  distinct_neighbours (xs ++ [(l, n)]) = true → (c =? l)%char = false →
  distinct_neighbours (xs ++ [(l, n'); (c, m)]) = true.
Proof.
  intros H Hne. rewrite Ascii.eqb_sym in Hne.
  induction xs as [|[a k] xs IH]; simpl in *; [by rewrite Hne|].
  destruct xs as [|[b k'] xs]; simpl in *.
  - apply andb_true_iff in H as [-> _]. by rewrite Hne.
  - apply andb_true_iff in H as [-> H]. by apply IH.
Qed.

Lemma distinct_neighbours_count (xs : list (ascii * Z)) (l : ascii) (n n' : Z) :
  distinct_neighbours (xs ++ [(l, n)]) = true →
  distinct_neighbours (xs ++ [(l, n')]) = true.
Proof.
  intros H. induction xs as [|[a k] xs IH]; simpl in *; [done|].
  destruct xs as [|[b k'] xs]; simpl in *; [done|].
  apply andb_true_iff in H as [-> H]. by apply IH.
Qed.

Lemma collapse_distinct raw ops last count :
  (last = None → ops = []) →
  distinct_neighbours (ops ++ pending last count) = true →
  match Batch.collapse raw ops last count with
  | (ops', last', count') =>
      distinct_neighbours (ops' ++ pending last' count') = true
  end.
Proof.
  revert ops last count.
  induction raw as [|c raw IH]; intros ops last count Hnone H; [done|].
  simpl. destruct (is_operator c); simpl; [|by apply IH].
  destruct last as [l|]; simpl in *.
  - destruct (c =? l)%char eqn:Hcl.
    + apply IH; [done|]. simpl. by eapply distinct_neighbours_count.
    + apply IH; [done|]. simpl. rewrite <- app_assoc. simpl.
      by eapply distinct_neighbours_snoc.
  - rewrite (Hnone eq_refl). by apply IH.
Qed.

Lemma parse_code_distinct (raw : list ascii) :
  distinct_neighbours (Batch.parse_code raw) = true.
Proof.
  unfold Batch.parse_code.
  pose proof (collapse_distinct raw [] None 0 ltac:(done) eq_refl) as H.
  destruct (Batch.collapse raw [] None 0) as [[ops [l|]] count]; simpl in H;
    rewrite ?app_nil_r in H; done.
Qed.

(** The characters that are no operators do not count. *)
Lemma collapse_filter raw ops last count :
  Batch.collapse (Simple.parse_code raw) ops last count =
  Batch.collapse raw ops last count.
Proof.
  revert ops last count. induction raw as [|c raw IH]; intros ops last count; [done|].
  unfold Simple.parse_code. simpl. fold (Simple.parse_code raw).
  destruct (is_operator c) eqn:Hc; simpl; [|apply IH].
  rewrite Hc. simpl. destruct last as [l|]; [destruct (c =? l)%char|]; apply IH.
Qed.

Lemma parse_code_filter (raw : list ascii) :
  Batch.parse_code (Simple.parse_code raw) = Batch.parse_code raw.
Proof. unfold Batch.parse_code. by rewrite collapse_filter. Qed.

Lemma simple_parse_code_id (code : list ascii) :
  Forall (fun c => is_operator c = true) code → Simple.parse_code code = code.
Proof.
  unfold Simple.parse_code. induction 1 as [|c code Hc _ IH]; [done|].
  simpl. by rewrite Hc, IH.
Qed.

Lemma simple_parse_code_sublist (raw : list ascii) :
  Simple.parse_code raw `sublist_of` raw.
Proof.
  unfold Simple.parse_code. induction raw as [|c raw IH]; simpl; [done|].
  destruct (is_operator c); [by apply sublist_skip|by apply sublist_cons].
Qed.

Lemma expand_length_le (ops : list (ascii * Z)) :
  Forall (fun op => 1 <= op.2) ops → (length ops ≤ length (expand ops))%nat.
Proof.
  induction 1 as [|[c n] ops Hn _ IH]; [done|].
  unfold expand in *. simpl in *. rewrite length_app, length_replicate. lia.
Qed.

End Parsers.

(** ** Runs that go on *)

Section Continuation.

Lemma io_extends_refl (s : state) : io_extends s s.
Proof. by split. Qed.

Lemma io_extends_trans (s1 s2 s3 : state) :
  io_extends s1 s2 → io_extends s2 s3 → io_extends s1 s3.
Proof. intros [? ?] [? ?]. split; by etrans. Qed.

Ltac io_solve :=
  split; simpl;
  first [ done | by apply prefix_app_r | by apply suffix_cons_r
        | match goal with H : stdin _ = _ |- _ => rewrite H; by apply suffix_cons_r end ].

Lemma simple_dispatch_io jt (c : ascii) (s : state) :
  io_extends s (Simple.dispatch jt c s).2.
Proof.
  unfold Simple.dispatch. case_cmd; exec; repeat case_match; simplify_eq/=;
    io_solve.
Qed.

Lemma batch_dispatch_io jt (c : ascii) (n : Z) (s : state) :
  io_extends s (Batch.dispatch jt c n s).2.
Proof.
  unfold Batch.dispatch. case_cmd; exec; repeat case_match; simplify_eq/=;
    io_solve.
Qed.

Lemma simple_body_io code jt debug (s : state) :
  io_extends s (Simple.body code jt debug s).2.
Proof.
  unfold Simple.body. cbv [bind get_ip].
  destruct (code !! ip s) as [c|]; [|apply io_extends_refl].
  pose proof (simple_dispatch_io jt c s) as H.
  destruct (Simple.dispatch jt c s) as [[e|[|]] s1]; simpl in *; [done..|].
  eapply io_extends_trans; [exact H|].
  destruct debug; exec; repeat case_match; simplify_eq/=; io_solve.
Qed.

Lemma batch_body_io ops jt debug (s : state) :
  io_extends s (Batch.body ops jt debug s).2.
Proof.
  unfold Batch.body. cbv [bind get_ip].
  destruct (ops !! ip s) as [[c n]|]; [|apply io_extends_refl].
  pose proof (batch_dispatch_io jt c n s) as H.
  destruct (Batch.dispatch jt c n s) as [[e|[|]] s1]; simpl in *; [done..|].
  eapply io_extends_trans; [exact H|].
  destruct debug; exec; repeat case_match; simplify_eq/=; io_solve.
Qed.

Lemma simple_loop_io code jt debug fuel (s : state) :
  io_extends s (Simple.loop code jt debug fuel s).2.
Proof.
  revert s. induction fuel as [|fuel IH]; intros s; simpl.
  - destruct (ip s <? length code)%nat; apply io_extends_refl.
  - destruct (ip s <? length code)%nat; [|apply io_extends_refl].
    pose proof (simple_body_io code jt debug s) as H.
    destruct (Simple.body code jt debug s) as [[e|[]] s1]; [done|].
    eapply io_extends_trans; [exact H|apply IH].
Qed.

Lemma batch_loop_io ops jt debug fuel (s : state) :
  io_extends s (Batch.loop ops jt debug fuel s).2.
Proof.
  revert s. induction fuel as [|fuel IH]; intros s; simpl.
  - destruct (ip s <? length ops)%nat; apply io_extends_refl.
  - destruct (ip s <? length ops)%nat; [|apply io_extends_refl].
    pose proof (batch_body_io ops jt debug s) as H.
    destruct (Batch.body ops jt debug s) as [[e|[]] s1]; [done|].
    eapply io_extends_trans; [exact H|apply IH].
Qed.

(** [m + f] iterations are [m] iterations and then [f], unless the first
    [m] end the run. *)
Lemma simple_loop_add code jt debug (m f : nat) (s : state) :
  Simple.loop code jt debug (m + f) s =
  match Simple.loop code jt debug m s with
  | (OutOfFuel, s1) => Simple.loop code jt debug f s1
  | r => r
  end.
Proof.
  revert s. induction m as [|m IH]; intros s; simpl.
  - destruct (ip s <? length code)%nat eqn:E; [done|].
    destruct f; simpl; by rewrite E.
  - destruct (ip s <? length code)%nat; [|done].
    destruct (Simple.body code jt debug s) as [[e|[]] s1]; [done|apply IH].
Qed.

Lemma batch_loop_add ops jt debug (m f : nat) (s : state) :
  Batch.loop ops jt debug (m + f) s =
  match Batch.loop ops jt debug m s with
  | (OutOfFuel, s1) => Batch.loop ops jt debug f s1
  | r => r
  end.
Proof.
  revert s. induction m as [|m IH]; intros s; simpl.
  - destruct (ip s <? length ops)%nat eqn:E; [done|].
    destruct f; simpl; by rewrite E.
  - destruct (ip s <? length ops)%nat; [|done].
    destruct (Batch.body ops jt debug s) as [[e|[]] s1]; [done|apply IH].
Qed.

End Continuation.

(** ** What the loop may raise *)

Section Safety.
Local Open Scope nat_scope.

Lemma build_jump_table_good (code : list ascii) (table : gmap nat nat) :
  Simple.build_jump_table code = inr table → good_table code table.
Proof.
  intros H. pose proof (build_jump_table_spec code) as Hs. rewrite H in Hs.
  destruct Hs as (_ & Hsym & Hdom). intros i Hi.
  destruct (proj2 (Hdom i) Hi) as [j Hj]. exists j. split; [done|].
  assert (bracket_at code j) as [Hb|Hb]
    by (apply Hdom; exists i; by apply Hsym);
    by apply lookup_lt_Some in Hb.
Qed.

Lemma input_failure_suffix (l lines : list (list char)) (e : exn) (s : state) :
  l `suffix_of` lines → input_failure l e s → input_failure lines e s.
Proof.
  intros [k ->] [H|[[-> [b ->]]|[-> (b & c & r & -> & Hc)]]].
  - by left.
  - right; left. split; [done|]. exists (k ++ b). by rewrite <- app_assoc.
  - right; right. split; [done|]. exists (k ++ b), c, r.
    by rewrite <- app_assoc.
Qed.

(** The three ways in which [,] raises, and the one in which it does
    not. *)
Lemma comma_safe (s : state) :
  wf s →
  match (let! line := input in let! c := first_char line in
         let! v := np_uint8 (ord c) in set_cell v ;; ret false) s with
  | (inr b, s') => b = false ∧ ip s' = ip s
  | (inl e, s') => ip s' = ip s ∧ input_failure (stdin s) e s'
  end.
Proof.
  intros Hwf. unfold input_failure. exec.
  destruct (stdin s) as [|[|ch line] rest] eqn:Hin; simpl.
  - split; [done|]. by left.
  - split; [done|]. right; left. split; [done|]. by exists [].
  - pose proof (ord_nonneg ch) as Hch.
    destruct ((0 <=? ord ch)%Z && (ord ch <? 256)%Z) eqn:Hb; simpl.
    + apply byte_true in Hb.
      by destruct (setitem_wf _ _ (ord ch) Hwf Hb) as [-> _].
    + split; [done|]. right; right. split; [done|]. exists [], ch, line.
      split; [done|]. apply Z.nlt_ge. intros Hlt.
      rewrite (proj2 (byte_spec (ord ch))) in Hb by lia. done.
Qed.

Lemma simple_dispatch_safe code jt (s : state) (c : ascii) :
  wf s → good_table code jt → code !! ip s = Some c →
  match Simple.dispatch jt c s with
  | (inr true, s') => ip s' < length code
  | (inr false, s') => ip s' = ip s
  | (inl e, s') =>
      ip s' = ip s ∧ c = ","%char ∧ input_failure (stdin s) e s'
  end.
Proof.
  intros Hwf Hjt Hc. destruct (getitem_wf _ _ Hwf) as (v & Hg & _ & Hv).
  assert (∀ w, setitem (tape s) (ptr s) (uint8 w) =
               Some (<[Z.to_nat (ptr s) := uint8 w]> (tape s))) as Hset.
  { intros w. by destruct (setitem_wf _ _ (uint8 w) Hwf (uint8_range _)). }
  assert (is_bracket c = true → ∃ j, jt !! ip s = Some j ∧ j < length code) as Hj.
  { intros Hb. apply Hjt. apply orb_true_iff in Hb as [Hb|Hb];
      apply Ascii.eqb_eq in Hb as ->; [by left|by right]. }
  unfold is_bracket in Hj. unfold Simple.dispatch.
  destruct (c =? ",")%char eqn:Hcomma.
  { apply Ascii.eqb_eq in Hcomma as ->. simpl.
    pose proof (comma_safe s Hwf) as H.
    destruct (bind input _ s) as [[e|b] s']; [|by destruct H as [-> ?]].
    destruct H. done. }
  case_cmd; exec; rewrite ?Hg, ?Hset; simpl; try done;
    destruct (Z.eqb_spec v 0); try done;
    (destruct Hj as (j & -> & Hlt); [done|done]).
Qed.

Lemma batch_dispatch_safe (ops : list (ascii * Z)) jt (s : state) (c : ascii) (n : Z) :
  wf s → good_table ops.*1 jt → ops !! ip s = Some (c, n) →
  is_operator c = true →
  match Batch.dispatch jt c n s with
  | (inr true, s') => ip s' < length ops
  | (inr false, s') => ip s' = ip s
  | (inl e, s') =>
      ip s' = ip s ∧
      ((c = ","%char ∧ input_failure (stdin s) e s') ∨
       (e = OverflowError ∧ count_fits (c, n) = false ∧ s' = s))
  end.
Proof.
  intros Hwf Hjt Hc Hop. destruct (getitem_wf _ _ Hwf) as (v & Hg & _ & Hv).
  assert (∀ w, setitem (tape s) (ptr s) (uint8 w) =
               Some (<[Z.to_nat (ptr s) := uint8 w]> (tape s))) as Hset.
  { intros w. by destruct (setitem_wf _ _ (uint8 w) Hwf (uint8_range _)). }
  assert (ops.*1 !! ip s = Some c) as Hc' by (by rewrite list_lookup_fmap, Hc).
  assert (is_bracket c = true → ∃ j, jt !! ip s = Some j ∧ j < length ops) as Hj.
  { intros Hb. rewrite <- (length_fmap fst ops). apply Hjt.
    apply orb_true_iff in Hb as [Hb|Hb];
      apply Ascii.eqb_eq in Hb as ->; [by left|by right]. }
  revert Hop. unfold is_bracket in Hj.
  unfold Batch.dispatch, is_operator, count_fits. simpl.
  destruct (c =? ",")%char eqn:Hcomma.
  { apply Ascii.eqb_eq in Hcomma as ->. simpl. intros _.
    pose proof (comma_safe s Hwf) as H.
    destruct (bind input _ s) as [[e|b] s']; [|by destruct H as [-> ?]].
    destruct H. split; [done|]. by left. }
  destruct (c =? "+")%char eqn:Hplus.
  { apply Ascii.eqb_eq in Hplus as ->. simpl. intros _. exec. rewrite Hg.
    destruct ((0 <=? n)%Z && (n <? 256)%Z); simpl; [by rewrite Hset|].
    split; [done|]. by right. }
  destruct (c =? "-")%char eqn:Hminus.
  { apply Ascii.eqb_eq in Hminus as ->. simpl. intros _. exec. rewrite Hg.
    destruct ((0 <=? n)%Z && (n <? 256)%Z); simpl; [by rewrite Hset|].
    split; [done|]. by right. }
  case_cmd; exec; rewrite ?Hg, ?Hset; simpl; try done; intros _;
    destruct (Z.eqb_spec v 0); try done;
    (destruct Hj as (j & -> & Hlt); [done|done]).
Qed.

Lemma simple_body_safe code jt debug (s : state) :
  wf s → good_table code jt → ip s < length code →
  match Simple.body code jt debug s with
  | (inr _, s') => wf s' ∧ ip s' ≤ length code
  | (inl e, s') =>
      code !! ip s' = Some ","%char ∧ input_failure (stdin s) e s'
  end.
Proof.
  intros Hwf Hjt Hlt. destruct (lookup_lt_is_Some_2 code (ip s) Hlt) as [c Hc].
  pose proof (simple_dispatch_safe code jt s c Hwf Hjt Hc) as Hd.
  pose proof (simple_dispatch_wf jt c s Hwf) as Hwf1.
  unfold Simple.body. cbv [bind get_ip]. rewrite Hc.
  destruct (Simple.dispatch jt c s) as [[e|[|]] s1]; simpl in *.
  - destruct Hd as (Hip & -> & Hf). by rewrite Hip.
  - split; [done|lia].
  - destruct (getitem_wf _ _ Hwf1) as (v & Hg & _).
    destruct debug; exec; rewrite ?Hg; simpl; (split; [done|lia]).
Qed.

Lemma batch_body_safe (ops : list (ascii * Z)) jt debug (s : state) :
  wf s → good_table ops.*1 jt → Forall valid_op ops → ip s < length ops →
  match Batch.body ops jt debug s with
  | (inr _, s') => wf s' ∧ ip s' ≤ length ops
  | (inl e, s') =>
      (ops.*1 !! ip s' = Some ","%char ∧ input_failure (stdin s) e s') ∨
      count_failure ops e s'
  end.
Proof.
  intros Hwf Hjt Hops Hlt.
  destruct (lookup_lt_is_Some_2 ops (ip s) Hlt) as [[c n] Hc].
  pose proof (batch_dispatch_safe ops jt s c n Hwf Hjt Hc
                (Forall_lookup_1 _ _ _ _ Hops Hc)) as Hd.
  pose proof (batch_dispatch_wf jt c n s Hwf) as Hwf1.
  unfold Batch.body. cbv [bind get_ip]. rewrite Hc.
  destruct (Batch.dispatch jt c n s) as [[e|[|]] s1]; simpl in *.
  - destruct Hd as [Hip [[-> Hf]|(-> & Hfit & ->)]].
    + left. by rewrite Hip, list_lookup_fmap, Hc.
    + right. split; [done|]. by exists (c, n).
  - split; [done|lia].
  - destruct (getitem_wf _ _ Hwf1) as (v & Hg & _).
    destruct debug; exec; rewrite ?Hg; simpl; (split; [done|lia]).
Qed.

Lemma simple_loop_safe code jt debug lines fuel (s : state) :
  wf s → good_table code jt → ip s ≤ length code →
  stdin s `suffix_of` lines →
  match Simple.loop code jt debug fuel s with
  | (Finished, s') => ip s' = length code
  | (OutOfFuel, s') => ip s' < length code
  | (Raised e, s') => code !! ip s' = Some ","%char ∧ input_failure lines e s'
  end.
Proof.
  intros Hwf Hjt. revert s Hwf.
  induction fuel as [|fuel IH]; intros s Hwf Hle Hin; simpl.
  - destruct (Nat.ltb_spec (ip s) (length code)); [done|lia].
  - destruct (Nat.ltb_spec (ip s) (length code)) as [Hlt|?]; [|lia].
    pose proof (simple_body_safe code jt debug s Hwf Hjt Hlt) as Hb.
    pose proof (simple_body_io code jt debug s) as [_ Hio].
    destruct (Simple.body code jt debug s) as [[e|[]] s'].
    + destruct Hb as [? Hf]. split; [done|]. by eapply input_failure_suffix.
    + destruct Hb. apply IH; [done..|]. by etrans.
Qed.

Lemma batch_loop_safe (ops : list (ascii * Z)) jt debug lines fuel (s : state) :
  wf s → good_table ops.*1 jt → Forall valid_op ops → ip s ≤ length ops →
  stdin s `suffix_of` lines →
  match Batch.loop ops jt debug fuel s with
  | (Finished, s') => ip s' = length ops
  | (OutOfFuel, s') => ip s' < length ops
  | (Raised e, s') =>
      (ops.*1 !! ip s' = Some ","%char ∧ input_failure lines e s') ∨
      count_failure ops e s'
  end.
Proof.
  intros Hwf Hjt Hops. revert s Hwf.
  induction fuel as [|fuel IH]; intros s Hwf Hle Hin; simpl.
  - destruct (Nat.ltb_spec (ip s) (length ops)); [done|lia].
  - destruct (Nat.ltb_spec (ip s) (length ops)) as [Hlt|?]; [|lia].
    pose proof (batch_body_safe ops jt debug s Hwf Hjt Hops Hlt) as Hb.
    pose proof (batch_body_io ops jt debug s) as [_ Hio].
    destruct (Batch.body ops jt debug s) as [[e|[]] s'].
    + destruct Hb as [[? Hf]|Hf]; [left|by right].
      split; [done|]. by eapply input_failure_suffix.
    + destruct Hb. apply IH; [done..|]. by etrans.
Qed.

(** [run]: the exception is a syntax error of [build_jump_table], raised
    in the initial state, or a failure of an instruction. *)
Lemma simple_run_safe debug code lines fuel :
  match Simple.run debug code lines fuel with
  | (Finished, s) => balanced code = true ∧ ip s = length code
  | (OutOfFuel, s) => balanced code = true ∧ ip s < length code
  | (Raised e, s) =>
      (is_syntax_error e = true ∧ balanced code = false ∧ s = initial lines) ∨
      (balanced code = true ∧ code !! ip s = Some ","%char ∧
       input_failure lines e s)
  end.
Proof.
  unfold Simple.run. pose proof (build_jump_table_spec code) as Hs.
  pose proof (build_jump_table_good code) as Hg.
  pose proof (proj2 (build_jump_table_balanced code)) as Hb.
  destruct (Simple.build_jump_table code) as [e|jt] eqn:E.
  - left. destruct (balanced code) eqn:Hbal.
    + destruct (build_jump_table_balanced code) as [H _].
      destruct (H Hbal) as [table Ht]. congruence.
    + by destruct e.
  - specialize (Hb ltac:(by eexists)).
    pose proof (simple_loop_safe code jt debug lines fuel (initial lines)
                  (wf_initial _) (Hg jt eq_refl) ltac:(simpl; lia)
                  ltac:(done)) as Hl.
    destruct (Simple.loop code jt debug fuel (initial lines)) as [[|e|] s]; auto.
Qed.

Lemma batch_run_safe debug (ops : list (ascii * Z)) lines fuel :
  Forall valid_op ops →
  match Batch.run debug ops lines fuel with
  | (Finished, s) => balanced ops.*1 = true ∧ ip s = length ops
  | (OutOfFuel, s) => balanced ops.*1 = true ∧ ip s < length ops
  | (Raised e, s) =>
      (is_syntax_error e = true ∧ balanced ops.*1 = false ∧ s = initial lines) ∨
      (balanced ops.*1 = true ∧
       ((ops.*1 !! ip s = Some ","%char ∧ input_failure lines e s) ∨
        count_failure ops e s))
  end.
Proof.
  intros Hops. unfold Batch.run. rewrite batch_build_jump_table_fst.
  pose proof (build_jump_table_spec ops.*1) as Hs.
  pose proof (build_jump_table_good ops.*1) as Hg.
  pose proof (proj2 (build_jump_table_balanced ops.*1)) as Hb.
  destruct (Simple.build_jump_table ops.*1) as [e|jt] eqn:E.
  - left. destruct (balanced ops.*1) eqn:Hbal.
    + destruct (build_jump_table_balanced ops.*1) as [H _].
      destruct (H Hbal) as [table Ht]. congruence.
    + by destruct e.
  - specialize (Hb ltac:(by eexists)).
    pose proof (batch_loop_safe ops jt debug lines fuel (initial lines)
                  (wf_initial _) (Hg jt eq_refl) Hops ltac:(simpl; lia)
                  ltac:(done)) as Hl.
    destruct (Batch.loop ops jt debug fuel (initial lines)) as [[|e|] s]; auto.
Qed.

End Safety.

(** ** A run-length instruction and the run it stands for *)

Section RunLength.

Lemma repeatable_cases (c : ascii) :
  repeatable c = true →
  c = ">"%char ∨ c = "<"%char ∨ c = "+"%char ∨ c = "-"%char ∨ c = "."%char.
Proof.
  unfold repeatable. simpl. intros H.
  repeat (apply orb_true_iff in H as [H|H];
          [apply Ascii.eqb_eq in H; auto 6|]).
  done.
Qed.

Lemma state_eta (s : state) :
  {| ip := ip s; ptr := ptr s; tape := tape s;
     stdin := stdin s; stdout := stdout s |} = s.
Proof. by destruct s. Qed.

(** Count 0 changes nothing. *)
Lemma batch_dispatch_0 jt (c : ascii) (s : state) :
  wf s → repeatable c = true → Batch.dispatch jt c 0 s = (inr false, s).
Proof.
  intros Hwf Hc. destruct (getitem_wf _ _ Hwf) as (v & Hg & Hl & Hv).
  pose proof Hwf as (Hlen & Hp & _).
  destruct (repeatable_cases c Hc) as [->|[->|[->|[->| ->]]]];
    unfold Batch.dispatch; simpl; exec; rewrite ?Hg; simpl.
  - rewrite Z.add_0_r, Hlen, Z2Nat.id, Z.mod_small by done. by rewrite state_eta.
  - rewrite Z.sub_0_r, Hlen, Z2Nat.id, Z.mod_small by done. by rewrite state_eta.
  - rewrite Z.add_0_r, uint8_small by done.
    destruct (setitem_wf _ _ v Hwf Hv) as [-> _].
    rewrite list_insert_id by done. by rewrite state_eta.
  - rewrite Z.sub_0_r, uint8_small by done.
    destruct (setitem_wf _ _ v Hwf Hv) as [-> _].
    rewrite list_insert_id by done. by rewrite state_eta.
  - by rewrite app_nil_r, state_eta.
Qed.

Lemma count_fits_le (c : ascii) (m n : Z) :
  0 <= m <= n → count_fits (c, n) = true → count_fits (c, m) = true.
Proof.
  unfold count_fits. simpl. intros Hm.
  destruct ((c =? "+")%char || (c =? "-")%char); [|done].
  rewrite !byte_spec. lia.
Qed.

Lemma count_fits_false (c : ascii) (n : Z) :
  0 <= n → count_fits (c, n) = false →
  (c = "+"%char ∨ c = "-"%char) ∧ 256 <= n.
Proof.
  unfold count_fits. simpl. intros Hn.
  destruct (c =? "+")%char eqn:Hp; [apply Ascii.eqb_eq in Hp|];
    [|destruct (c =? "-")%char eqn:Hm; [apply Ascii.eqb_eq in Hm|done]];
    simpl; intros H; (split; [auto|]); apply Z.nlt_ge; intros Hlt;
    rewrite (proj2 (byte_spec n)) in H by lia; done.
Qed.

(** [+] and [-] of [02_batch.py] with a count that is a byte, and [-] of
    [01_simple.py], on a well-formed state. *)
Lemma batch_plus jt (n : Z) (s : state) :
  wf s → 0 <= n < 256 →
  Batch.dispatch jt "+" n s = (inr false, with_cell s (uint8 (cell s + n))).
Proof.
  intros Hwf Hn. destruct (cell_wf s Hwf) as [Hg _].
  unfold Batch.dispatch. simpl. unfold bind at 1, get_cell. rewrite Hg.
  unfold bind at 1. rewrite (np_uint8_byte n s Hn). exec.
  by destruct (setitem_wf _ _ (uint8 (cell s + n)) Hwf (uint8_range _)) as [-> _].
Qed.

Lemma batch_minus jt (n : Z) (s : state) :
  wf s → 0 <= n < 256 →
  Batch.dispatch jt "-" n s = (inr false, with_cell s (uint8 (cell s - n))).
Proof.
  intros Hwf Hn. destruct (cell_wf s Hwf) as [Hg _].
  unfold Batch.dispatch. simpl. unfold bind at 1, get_cell. rewrite Hg.
  unfold bind at 1. rewrite (np_uint8_byte n s Hn). exec.
  by destruct (setitem_wf _ _ (uint8 (cell s - n)) Hwf (uint8_range _)) as [-> _].
Qed.

Lemma simple_minus jt (s : state) :
  wf s → Simple.dispatch jt "-" s = (inr false, with_cell s (uint8 (cell s - 1))).
Proof.
  intros Hwf. destruct (cell_wf s Hwf) as [Hg _].
  unfold Simple.dispatch. simpl. exec. rewrite Hg.
  by destruct (setitem_wf _ _ (uint8 (cell s - 1)) Hwf (uint8_range _)) as [-> _].
Qed.

(** Count [n + 1] is count [n] and then the operator once. *)
Lemma batch_dispatch_succ jt jt' (c : ascii) (n : Z) (s : state) :
  wf s → repeatable c = true → 0 <= n → count_fits (c, n + 1) = true →
  Batch.dispatch jt c (n + 1) s =
  (inr false, (Simple.dispatch jt' c (Batch.dispatch jt c n s).2).2).
Proof.
  intros Hwf Hc Hn Hfit. destruct (getitem_wf _ _ Hwf) as (v & Hg & Hl & Hv).
  pose proof Hwf as (Hlen & Hp & _).
  destruct (repeatable_cases c Hc) as [->|[->|[->|[->| ->]]]].
  - unfold Batch.dispatch, Simple.dispatch; simpl; exec; simpl.
    do 2 f_equal. rewrite Zplus_mod_idemp_l. f_equal. lia.
  - unfold Batch.dispatch, Simple.dispatch; simpl; exec; simpl.
    do 2 f_equal. rewrite Zminus_mod_idemp_l. f_equal. lia.
  - apply byte_true in Hfit. simpl in Hfit.
    rewrite !batch_plus by (done || lia). cbn [snd].
    destruct (with_cell_wf s (uint8 (cell s + n)) Hwf (uint8_range _))
      as [Hwf' Hc'].
    rewrite simple_plus by done. cbn [snd]. rewrite with_cell_twice, Hc'.
    do 2 f_equal. unfold uint8. rewrite Zplus_mod_idemp_l. f_equal. lia.
  - apply byte_true in Hfit. simpl in Hfit.
    rewrite !batch_minus by (done || lia). cbn [snd].
    destruct (with_cell_wf s (uint8 (cell s - n)) Hwf (uint8_range _))
      as [Hwf' Hc'].
    rewrite simple_minus by done. cbn [snd]. rewrite with_cell_twice, Hc'.
    do 2 f_equal. unfold uint8. rewrite Zminus_mod_idemp_l. f_equal. lia.
  - unfold Batch.dispatch, Simple.dispatch; simpl; exec; rewrite ?Hg; simpl.
    rewrite Hg. simpl. do 2 f_equal.
    rewrite <- app_assoc. f_equal.
    replace (Z.to_nat (n + 1)) with (Z.to_nat n + 1)%nat by lia.
    by rewrite replicate_add.
Qed.

Lemma simple_dispatch_repeatable jt (c : ascii) (s : state) :
  wf s → repeatable c = true →
  (Simple.dispatch jt c s).1 = inr false ∧ ip (Simple.dispatch jt c s).2 = ip s.
Proof.
  intros Hwf Hc. destruct (getitem_wf _ _ Hwf) as (v & Hg & Hl & Hv).
  assert (∀ w, setitem (tape s) (ptr s) (uint8 w) =
               Some (<[Z.to_nat (ptr s) := uint8 w]> (tape s))) as Hset.
  { intros w. by destruct (setitem_wf _ _ (uint8 w) Hwf (uint8_range _)). }
  destruct (repeatable_cases c Hc) as [->|[->|[->|[->| ->]]]];
    unfold Simple.dispatch; simpl; exec; rewrite ?Hg, ?Hset; done.
Qed.

(** The instruction [(c, n)] of [02_batch.py] does what [n] times [c] do
    in [01_simple.py]. *)
Lemma batch_dispatch_iter jt jt' (c : ascii) (n : Z) (s : state) :
  wf s → repeatable c = true → 0 <= n → count_fits (c, n) = true →
  Batch.dispatch jt c n s =
  (inr false, Nat.iter (Z.to_nat n) (fun s => (Simple.dispatch jt' c s).2) s).
Proof.
  intros Hwf Hc Hn Hfit.
  assert (∀ m : nat, Z.of_nat m <= n →
            Batch.dispatch jt c (Z.of_nat m) s =
            (inr false, Nat.iter m (fun s => (Simple.dispatch jt' c s).2) s))
    as H.
  { induction m as [|m IH]; intros Hm; [by apply batch_dispatch_0|].
    rewrite Nat2Z.inj_succ, <- Z.add_1_r.
    rewrite (batch_dispatch_succ jt jt');
      [|done|done|lia|eapply count_fits_le; [|exact Hfit]; lia].
    by rewrite IH by lia. }
  rewrite <- (Z2Nat.id n) at 1 by done. apply H. lia.
Qed.

End RunLength.

(** ** The text of an encoded program *)

Section Text.
Local Open Scope nat_scope.

Lemma expand_cons (c : ascii) (n : Z) (ops : list (ascii * Z)) :
  expand ((c, n) :: ops) = replicate (Z.to_nat n) c ++ expand ops.
Proof. done. Qed.

Lemma expand_single (c : ascii) (n : Z) :
  expand [(c, n)] = replicate (Z.to_nat n) c.
Proof. unfold expand. simpl. apply app_nil_r. Qed.

Lemma offset_0 (ops : list (ascii * Z)) : offset ops 0 = 0.
Proof. unfold offset. by rewrite take_0. Qed.

Lemma offset_S (ops : list (ascii * Z)) (k : nat) (c : ascii) (n : Z) :
  ops !! k = Some (c, n) → offset ops (S k) = offset ops k + Z.to_nat n.
Proof.
  intros H. unfold offset. rewrite (take_S_r _ _ _ H), expand_app, length_app.
  by rewrite expand_single, length_replicate.
Qed.

Lemma offset_length (ops : list (ascii * Z)) :
  offset ops (length ops) = length (expand ops).
Proof. unfold offset. by rewrite take_ge. Qed.

Lemma expand_middle (ops : list (ascii * Z)) (k : nat) (c : ascii) (n : Z) :
  ops !! k = Some (c, n) →
  expand ops =
    expand (take k ops) ++ replicate (Z.to_nat n) c ++ expand (drop (S k) ops).
Proof.
  intros H. rewrite <- (take_drop_middle _ _ _ H) at 1.
  by rewrite expand_app, expand_cons.
Qed.

Lemma expand_lookup (ops : list (ascii * Z)) (k j : nat) (c : ascii) (n : Z) :
  ops !! k = Some (c, n) → j < Z.to_nat n →
  expand ops !! (offset ops k + j) = Some c.
Proof.
  intros H Hj. rewrite (expand_middle _ _ _ _ H). unfold offset.
  rewrite lookup_app_r by lia.
  replace (length (expand (take k ops)) + j - length (expand (take k ops)))
    with j by lia.
  rewrite lookup_app_l by (rewrite length_replicate; lia).
  by apply lookup_replicate_2.
Qed.

Lemma plain_lookup (ops : list (ascii * Z)) (k : nat) (c : ascii) (n : Z) :
  plain ops = true → ops !! k = Some (c, n) →
  is_operator c = true ∧ (1 <= n)%Z ∧ (repeatable c = true ∨ n = 1%Z).
Proof.
  unfold plain. rewrite forallb_forall. intros H Hk.
  specialize (H (c, n) ltac:(apply list_elem_of_In; by eapply list_elem_of_lookup_2)).
  simpl in H. apply andb_true_iff in H as [H H3]. apply andb_true_iff in H as [H1 H2].
  split; [done|]. split; [lia|].
  apply orb_true_iff in H3 as [?|?]; [by left|right; lia].
Qed.

Lemma count_fits_lookup (ops : list (ascii * Z)) (k : nat) (op : ascii * Z) :
  forallb count_fits ops = true → ops !! k = Some op → count_fits op = true.
Proof.
  rewrite forallb_forall. intros H Hk. apply H, list_elem_of_In.
  by eapply list_elem_of_lookup_2.
Qed.

Lemma plain_valid (ops : list (ascii * Z)) :
  plain ops = true → Forall valid_op ops.
Proof.
  intros H. apply Forall_lookup. intros k [c n] Hk.
  by destruct (plain_lookup ops k c n H Hk).
Qed.

Lemma offset_lt (ops : list (ascii * Z)) (k k' : nat) :
  plain ops = true → k < k' → k' ≤ length ops → offset ops k < offset ops k'.
Proof.
  intros Hp Hlt Hle. induction k' as [|k' IH]; [lia|].
  destruct (lookup_lt_is_Some_2 ops k' ltac:(lia)) as [[c n] Hk].
  destruct (plain_lookup ops k' c n Hp Hk) as (_ & Hn & _).
  rewrite (offset_S _ _ _ _ Hk).
  destruct (decide (k = k')) as [->|Hne]; [lia|].
  specialize (IH ltac:(lia) ltac:(lia)). lia.
Qed.

Lemma offset_inj (ops : list (ascii * Z)) (k k' : nat) :
  plain ops = true → k ≤ length ops → k' ≤ length ops →
  offset ops k = offset ops k' → k = k'.
Proof.
  intros Hp Hk Hk' He. destruct (Nat.lt_trichotomy k k') as [H|[H|H]]; [|done|].
  - pose proof (offset_lt ops k k' Hp H Hk'). lia.
  - pose proof (offset_lt ops k' k Hp H Hk). lia.
Qed.

(** The scan of the text passes a run of an operator that is no bracket. *)
Lemma scan_run (c : ascii) (m : nat) (l : list ascii) (x : nat) table stack :
  is_bracket c = false →
  Simple.scan (replicate m c ++ l) x table stack = Simple.scan l (x + m) table stack.
Proof.
  unfold is_bracket. intros Hc. apply orb_false_iff in Hc as [Ho Hcl].
  revert x. induction m as [|m IH]; intros x; simpl; [by rewrite Nat.add_0_r|].
  rewrite Ho, Hcl, IH. f_equal. lia.
Qed.

Lemma table_in_text_insert (ops : list (ascii * Z)) (k o : nat) tb ts :
  plain ops = true → k < length ops → o < k →
  table_in_text ops k tb ts →
  table_in_text ops (S k) (<[k := o]> (<[o := k]> tb))
    (<[offset ops k := offset ops o]> (<[offset ops o := offset ops k]> ts)).
Proof.
  intros Hp Hk Ho R a b.
  assert (offset ops o ≠ offset ops k) as Hok
    by (pose proof (offset_lt ops o k Hp Ho ltac:(lia)); lia).
  destruct (decide (a = k)) as [->|Hak].
  { rewrite lookup_insert_eq. intros [= <-]. split; [lia|].
    by rewrite lookup_insert_eq. }
  rewrite lookup_insert_ne by done.
  destruct (decide (a = o)) as [->|Hao].
  { rewrite lookup_insert_eq. intros [= <-]. split; [lia|].
    rewrite lookup_insert_ne by done. by rewrite lookup_insert_eq. }
  rewrite lookup_insert_ne by done. intros Hab.
  destruct (R a b Hab) as [Ha Hts]. split; [lia|].
  rewrite !lookup_insert_ne; [done|..].
  - intros He. apply offset_inj in He; [done|done|lia..].
  - intros He. apply offset_inj in He; [done|done|lia..].
Qed.

End Text.

(** ** The jump table of an encoded program and the one of its text *)

Section TableInText.
Local Open Scope nat_scope.

Lemma not_repeatable_bracket (c : ascii) :
  is_bracket c = true → repeatable c = false.
Proof.
  unfold is_bracket. intros H. apply orb_true_iff in H as [H|H];
    apply Ascii.eqb_eq in H as ->; done.
Qed.

Lemma scan_in_text (ops rest : list (ascii * Z)) (k : nat) tb ts stack :
  plain ops = true →
  k ≤ length ops → drop k ops = rest →
  table_in_text ops k tb ts → Forall (fun a => a < k) stack →
  match Batch.scan rest k tb stack with
  | inr (tb', stack') =>
      ∃ ts', Simple.scan (expand rest) (offset ops k) ts (offset ops <$> stack)
             = inr (ts', offset ops <$> stack') ∧
             table_in_text ops (length ops) tb' ts'
  | inl e =>
      Simple.scan (expand rest) (offset ops k) ts (offset ops <$> stack)
      = inl (exn_in_text ops e)
  end.
Proof.
  intros Hp. revert k tb ts stack.
  induction rest as [|[c n] rest IH]; intros k tb ts stack Hle Hd R Hst.
  - simpl. exists ts. split; [done|].
    apply (f_equal length) in Hd. rewrite length_drop in Hd. simpl in Hd.
    by replace (length ops) with k by lia.
  - assert (ops !! k = Some (c, n)) as Hk.
    { rewrite <- (Nat.add_0_r k), <- lookup_drop, Hd. done. }
    assert (drop (S k) ops = rest) as Hd'.
    { replace (S k) with (k + 1) by lia. rewrite <- drop_drop, Hd. done. }
    assert (k < length ops) as Hlt by (by apply lookup_lt_Some in Hk).
    destruct (plain_lookup ops k c n Hp Hk) as (_ & Hn & Hrep).
    pose proof (offset_S ops k c n Hk) as HS.
    assert (table_in_text ops (S k) tb ts) as R'.
    { intros a b Hab. destruct (R a b Hab). split; [lia|done]. }
    assert (Forall (fun a => a < S k) stack) as Hst'.
    { eapply Forall_impl; [exact Hst|]. simpl. lia. }
    rewrite expand_cons. simpl Batch.scan.
    destruct (c =? "[")%char eqn:Ho.
    { apply Ascii.eqb_eq in Ho as ->. destruct Hrep as [?| ->]; [done|].
      simpl. change (Z.to_nat 1) with 1 in HS.
      replace (S (offset ops k)) with (offset ops (S k)) by lia.
      apply (IH (S k) tb ts (k :: stack)); [lia|done|done|].
      constructor; [lia|done]. }
    destruct (c =? "]")%char eqn:Hcl.
    { apply Ascii.eqb_eq in Hcl as ->. destruct Hrep as [?| ->]; [done|].
      simpl. change (Z.to_nat 1) with 1 in HS.
      replace (S (offset ops k)) with (offset ops (S k)) by lia.
      destruct stack as [|o stack]; [done|]. simpl.
      apply Forall_cons in Hst as [Ho' Hst].
      apply (IH (S k)); [lia|done| |].
      - by apply table_in_text_insert.
      - eapply Forall_impl; [exact Hst|]. simpl. lia. }
    rewrite scan_run by (unfold is_bracket; by rewrite Ho, Hcl).
    rewrite <- HS. by apply IH.
Qed.

(** [build_jump_table] on the instructions and on their text: the same
    failure, or the same table. *)
Lemma build_jump_table_in_text (ops : list (ascii * Z)) :
  plain ops = true →
  match Batch.build_jump_table ops with
  | inr tb =>
      ∃ ts, Simple.build_jump_table (expand ops) = inr ts ∧
            table_in_text ops (length ops) tb ts
  | inl e => Simple.build_jump_table (expand ops) = inl (exn_in_text ops e)
  end.
Proof.
  intros Hp. unfold Batch.build_jump_table, Simple.build_jump_table.
  pose proof (scan_in_text ops ops 0 ∅ ∅ [] Hp (Nat.le_0_l _) eq_refl) as H.
  rewrite offset_0 in H. simpl in H.
  specialize (H ltac:(intros a b Hab; by rewrite lookup_empty in Hab)
                ltac:(constructor)).
  destruct (Batch.scan ops 0 ∅ []) as [e|[tb [|top stack]]].
  - by rewrite H.
  - destruct H as (ts & -> & R). by exists ts.
  - destruct H as (ts & -> & R). done.
Qed.

End TableInText.

(** ** The loop on the instructions and the loop on their text *)

Section LoopInText.
Local Open Scope nat_scope.

Lemma at_ip_at_ip (i j : nat) (s : state) : at_ip i (at_ip j s) = at_ip i s.
Proof. done. Qed.

Lemma at_ip_same (s : state) : at_ip (ip s) s = s.
Proof. by destruct s. Qed.

(** A statement that is no bracket does not read the instruction
    pointer. *)
Lemma simple_dispatch_at_ip jt (c : ascii) (i : nat) (s : state) :
  is_bracket c = false →
  Simple.dispatch jt c (at_ip i s) =
  ((Simple.dispatch jt c s).1, at_ip i (Simple.dispatch jt c s).2).
Proof.
  unfold is_bracket, Simple.dispatch. intros H.
  apply orb_false_iff in H as [-> ->].
  case_cmd; unfold at_ip; exec; simpl; repeat case_match; simplify_eq/=;
    try done; congruence.
Qed.

Lemma simple_body_false code jt (s : state) (c : ascii) :
  code !! ip s = Some c →
  Simple.body code jt false s =
  match Simple.dispatch jt c s with
  | (inl e, s') => (inl e, s')
  | (inr true, s') => (inr tt, s')
  | (inr false, s') => (inr tt, at_ip (S (ip s')) s')
  end.
Proof.
  intros Hc. unfold Simple.body. cbv [bind get_ip]. rewrite Hc.
  by destruct (Simple.dispatch jt c s) as [[e|[|]] s'].
Qed.

Lemma batch_body_false ops jt (s : state) (c : ascii) (n : Z) :
  ops !! ip s = Some (c, n) →
  Batch.body ops jt false s =
  match Batch.dispatch jt c n s with
  | (inl e, s') => (inl e, s')
  | (inr true, s') => (inr tt, s')
  | (inr false, s') => (inr tt, at_ip (S (ip s')) s')
  end.
Proof.
  intros Hc. unfold Batch.body. cbv [bind get_ip]. rewrite Hc.
  by destruct (Batch.dispatch jt c n s) as [[e|[|]] s'].
Qed.

Lemma repeatable_no_bracket (c : ascii) :
  repeatable c = true → is_bracket c = false.
Proof. intros H. by destruct (repeatable_cases c H) as [->|[->|[->|[->| ->]]]]. Qed.

Lemma iter_dispatch_facts jt (c : ascii) (m : nat) (s : state) :
  wf s → repeatable c = true →
  wf (Nat.iter m (fun s => (Simple.dispatch jt c s).2) s) ∧
  ip (Nat.iter m (fun s => (Simple.dispatch jt c s).2) s) = ip s.
Proof.
  intros Hwf Hc. induction m as [|m [IH1 IH2]]; [done|].
  rewrite Nat.iter_succ. split; [by apply simple_dispatch_wf|].
  destruct (simple_dispatch_repeatable jt c _ IH1 Hc) as [_ ->]. done.
Qed.

Lemma iter_dispatch_at_ip jt (c : ascii) (m i : nat) (s : state) :
  repeatable c = true →
  Nat.iter m (fun s => (Simple.dispatch jt c s).2) (at_ip i s) =
  at_ip i (Nat.iter m (fun s => (Simple.dispatch jt c s).2) s).
Proof.
  intros Hc. induction m as [|m IH]; [done|].
  rewrite !Nat.iter_succ, IH.
  by rewrite simple_dispatch_at_ip by (by apply repeatable_no_bracket).
Qed.

(** The loop of [01_simple.py] over [m] times the operator [c]. *)
Lemma simple_loop_run code jt (c : ascii) (m f : nat) (s : state) :
  wf s → repeatable c = true →
  (∀ j, j < m → code !! (ip s + j) = Some c) →
  Simple.loop code jt false (m + f) s =
  Simple.loop code jt false f
    (at_ip (ip s + m) (Nat.iter m (fun s => (Simple.dispatch jt c s).2) s)).
Proof.
  intros Hwf Hc. revert s Hwf. induction m as [|m IH]; intros s Hwf Hcode.
  - simpl. by rewrite Nat.add_0_r, at_ip_same.
  - assert (code !! ip s = Some c) as H0.
    { rewrite <- (Hcode 0 ltac:(lia)). f_equal. lia. }
    rewrite Nat.iter_succ_r.
    change (S m + f) with (S (m + f)). cbn [Simple.loop].
    destruct (Nat.ltb_spec (ip s) (length code)) as [_|Hge];
      [|apply lookup_lt_Some in H0; lia].
    rewrite (simple_body_false _ _ _ _ H0).
    destruct (simple_dispatch_repeatable jt c s Hwf Hc) as [Hr Hip].
    pose proof (simple_dispatch_wf jt c s Hwf) as Hwf1.
    destruct (Simple.dispatch jt c s) as [r s1]. simpl in Hr, Hip, Hwf1. subst r.
    rewrite IH.
    + rewrite iter_dispatch_at_ip, at_ip_at_ip by done.
      change (ip (at_ip (S (ip s1)) s1)) with (S (ip s1)). rewrite Hip.
      by replace (S (ip s) + m) with (ip s + S m) by lia.
    + done.
    + intros j Hj. change (ip (at_ip (S (ip s1)) s1)) with (S (ip s1)).
      rewrite Hip, <- (Hcode (S j) ltac:(lia)). f_equal. lia.
Qed.

Lemma single_cases (c : ascii) :
  is_operator c = true → repeatable c = false →
  c = ","%char ∨ c = "["%char ∨ c = "]"%char.
Proof.
  unfold is_operator, repeatable. simpl. intros H Hr.
  repeat (apply orb_false_iff in Hr as [? Hr]).
  repeat (apply orb_true_iff in H as [H|H]; [try congruence|]); try done;
    apply Ascii.eqb_eq in H; auto.
Qed.

(** One iteration of the loop of [02_batch.py] is as many iterations
    of the loop of [01_simple.py] on the text as the count of the
    instruction. *)
Lemma body_in_text (ops : list (ascii * Z)) jtb jts (s : state)
    (c : ascii) (n : Z) (f : nat) :
  plain ops = true → forallb count_fits ops = true →
  table_in_text ops (length ops) jtb jts → good_table ops.*1 jtb →
  wf s → ops !! ip s = Some (c, n) →
  Simple.loop (expand ops) jts false (Z.to_nat n + f) (state_in_text ops s) =
  match Batch.body ops jtb false s with
  | (inr _, s') => Simple.loop (expand ops) jts false f (state_in_text ops s')
  | (inl e, s') => (Raised e, state_in_text ops s')
  end.
Proof.
  intros Hp Hfits R Hgood Hwf Hk.
  destruct (plain_lookup ops (ip s) c n Hp Hk) as (Hop & Hn & Hrep).
  pose proof (count_fits_lookup ops (ip s) (c, n) Hfits Hk) as Hfit.
  pose proof (offset_S ops (ip s) c n Hk) as HS.
  assert (expand ops !! offset ops (ip s) = Some c) as Hc0.
  { rewrite <- (Nat.add_0_r (offset ops (ip s))).
    apply (expand_lookup ops (ip s) 0 c n Hk). lia. }
  rewrite (batch_body_false _ _ _ _ _ Hk).
  destruct (repeatable c) eqn:Hr.
  - rewrite (batch_dispatch_iter jtb jts) by (done || lia).
    destruct (iter_dispatch_facts jts c (Z.to_nat n) s Hwf Hr) as [_ Hip].
    rewrite (simple_loop_run _ _ c); [|done|done|].
    + f_equal. unfold state_in_text. rewrite iter_dispatch_at_ip by done.
      rewrite !at_ip_at_ip. simpl ip. by rewrite Hip, HS.
    + intros j Hj. by apply (expand_lookup ops (ip s) j c n).
  - destruct Hrep as [?| ->]; [done|].
    change (Z.to_nat 1 + f) with (S f). cbn [Simple.loop].
    change (ip (state_in_text ops s)) with (offset ops (ip s)).
    destruct (Nat.ltb_spec (offset ops (ip s)) (length (expand ops))) as [_|?];
      [|apply lookup_lt_Some in Hc0; lia].
    rewrite (simple_body_false _ _ _ c) by done.
    destruct (getitem_wf _ _ Hwf) as (v & Hg & _ & Hv).
    change (Z.to_nat 1) with 1 in HS.
    assert (ops.*1 !! ip s = Some c) as Hc' by (by rewrite list_lookup_fmap, Hk).
    destruct (single_cases c Hop Hr) as [->|[->| ->]].
    + unfold Batch.dispatch, Simple.dispatch, state_in_text, at_ip. simpl. exec. simpl.
      destruct (stdin s) as [|[|ch line] rest] eqn:Hin; simpl; rewrite ?Hin;
        [done..|].
      destruct ((0 <=? ord ch)%Z && (ord ch <? 256)%Z) eqn:Hb; simpl; [|done].
      destruct (setitem_wf _ _ (ord ch) Hwf (byte_true _ Hb)) as [-> _].
      simpl. by rewrite HS, Nat.add_1_r.
    + destruct (Hgood (ip s) ltac:(by left)) as (j & Hj & _).
      destruct (R _ _ Hj) as [_ Hj'].
      unfold Batch.dispatch, Simple.dispatch, state_in_text, at_ip. simpl. exec. simpl.
      rewrite Hg. destruct (v =? 0)%Z; simpl.
      * by rewrite Hj, Hj'.
      * by rewrite HS, Nat.add_1_r.
    + destruct (Hgood (ip s) ltac:(by right)) as (j & Hj & _).
      destruct (R _ _ Hj) as [_ Hj'].
      unfold Batch.dispatch, Simple.dispatch, state_in_text, at_ip. simpl. exec. simpl.
      rewrite Hg. destruct (v =? 0)%Z; simpl.
      * by rewrite HS, Nat.add_1_r.
      * by rewrite Hj, Hj'.
Qed.

(** The loop of [02_batch.py] and the loop of [01_simple.py] on the text:
    the same outcome in the same state, with at least as many
    iterations. *)
Lemma loop_in_text (ops : list (ascii * Z)) jtb jts (fuel : nat) (s : state) :
  plain ops = true → forallb count_fits ops = true →
  table_in_text ops (length ops) jtb jts → good_table ops.*1 jtb →
  wf s → ip s ≤ length ops →
  ∃ fuel', fuel ≤ fuel' ∧
    Simple.loop (expand ops) jts false fuel' (state_in_text ops s) =
    ((Batch.loop ops jtb false fuel s).1,
     state_in_text ops (Batch.loop ops jtb false fuel s).2).
Proof.
  intros Hp Hfits R Hgood.
  revert s. induction fuel as [|fuel IH]; intros s Hwf Hle.
  - exists 0. split; [done|]. simpl.
    change (ip (state_in_text ops s)) with (offset ops (ip s)).
    rewrite <- offset_length.
    destruct (Nat.ltb_spec (ip s) (length ops)) as [Hlt|Hge].
    + pose proof (offset_lt ops _ _ Hp Hlt ltac:(lia)) as Ho.
      by destruct (Nat.ltb_spec (offset ops (ip s)) (offset ops (length ops))); [|lia].
    + replace (ip s) with (length ops) by lia.
      by destruct (Nat.ltb_spec (offset ops (length ops)) (offset ops (length ops))); [lia|].
  - simpl Batch.loop. destruct (Nat.ltb_spec (ip s) (length ops)) as [Hlt|Hge].
    + destruct (lookup_lt_is_Some_2 ops (ip s) Hlt) as [[c n] Hk].
      destruct (plain_lookup ops (ip s) c n Hp Hk) as (_ & Hn & _).
      pose proof (batch_body_safe ops jtb false s Hwf Hgood (plain_valid _ Hp) Hlt)
        as Hsafe.
      pose proof (λ f, body_in_text ops jtb jts s c n f Hp Hfits R Hgood Hwf Hk)
        as Hb.
      destruct (Batch.body ops jtb false s) as [[e|[]] s'].
      * exists (Z.to_nat n + fuel). split; [lia|]. by rewrite Hb.
      * destruct Hsafe as [Hwf' Hle'].
        destruct (IH s' Hwf' Hle') as (fuel' & Hf & Hl).
        exists (Z.to_nat n + fuel'). split; [lia|]. by rewrite Hb.
    + exists (S fuel). split; [done|]. simpl.
      change (ip (state_in_text ops s)) with (offset ops (ip s)).
      replace (ip s) with (length ops) by lia. rewrite offset_length.
      by destruct (Nat.ltb_spec (length (expand ops)) (length (expand ops))); [lia|].
Qed.

End LoopInText.

(** ** A whole run, encoded and as text *)

Section RunInText.
Local Open Scope nat_scope.

Lemma run_in_text (ops : list (ascii * Z)) (lines : list (list char))
    (fuel : nat) :
  plain ops = true → forallb count_fits ops = true →
  ∃ fuel', fuel ≤ fuel' ∧
    Simple.run false (expand ops) lines fuel' =
    (outcome_in_text ops (Batch.run false ops lines fuel).1,
     state_in_text ops (Batch.run false ops lines fuel).2).
Proof.
  intros Hp Hfits. unfold Simple.run, Batch.run.
  pose proof (build_jump_table_in_text ops Hp) as Hb.
  pose proof (build_jump_table_good ops.*1) as Hgood.
  rewrite <- batch_build_jump_table_fst in Hgood.
  destruct (Batch.build_jump_table ops) as [e|tb].
  - exists fuel. split; [done|]. rewrite Hb. simpl.
    unfold state_in_text. simpl ip. by rewrite offset_0.
  - destruct Hb as (ts & -> & R). specialize (Hgood tb eq_refl).
    destruct (loop_in_text ops tb ts fuel (initial lines) Hp Hfits R Hgood
                (wf_initial _) ltac:(simpl; lia)) as (fuel' & Hle & Hl).
    exists fuel'. split; [done|].
    replace (initial lines) with (state_in_text ops (initial lines)) at 1
      by (unfold state_in_text; simpl ip; by rewrite offset_0).
    rewrite Hl. f_equal.
    pose proof (batch_loop_safe ops tb false lines fuel (initial lines)
                  (wf_initial _) Hgood (plain_valid _ Hp) ltac:(simpl; lia)
                  ltac:(done)) as Hs.
    destruct (Batch.loop ops tb false fuel (initial lines)) as [[|e|] s]; try done.
    simpl. by destruct Hs as [[_ [[-> _]|[[-> _]|[-> _]]]]|[-> _]].
Qed.

End RunInText.

(** ** The items of the output *)

Section Output.

Lemma simple_dispatch_ip jt (c : ascii) (s : state) :
  (Simple.dispatch jt c s).1 = inr false → ip (Simple.dispatch jt c s).2 = ip s.
Proof.
  unfold Simple.dispatch. case_cmd; exec; repeat case_match; simplify_eq/=; done.
Qed.

Lemma batch_dispatch_ip jt (c : ascii) (n : Z) (s : state) :
  (Batch.dispatch jt c n s).1 = inr false → ip (Batch.dispatch jt c n s).2 = ip s.
Proof.
  unfold Batch.dispatch. case_cmd; exec; repeat case_match; simplify_eq/=; done.
Qed.

Lemma simple_dispatch_items code jt (c : ascii) (s : state) :
  wf s → Forall (item_ok code) (stdout s) →
  Forall (item_ok code) (stdout (Simple.dispatch jt c s).2).
Proof.
  intros Hwf Hout. destruct (getitem_wf _ _ Hwf) as (v & Hg & _ & Hv).
  unfold Simple.dispatch. case_cmd; exec; rewrite ?Hg; simpl;
    repeat case_match; simplify_eq/=; try done.
  apply Forall_app. split; [done|]. by apply Forall_singleton.
Qed.

Lemma batch_dispatch_items code jt (c : ascii) (n : Z) (s : state) :
  wf s → Forall (item_ok code) (stdout s) →
  Forall (item_ok code) (stdout (Batch.dispatch jt c n s).2).
Proof.
  intros Hwf Hout. destruct (getitem_wf _ _ Hwf) as (v & Hg & _ & Hv).
  unfold Batch.dispatch. case_cmd; exec; rewrite ?Hg; simpl;
    repeat case_match; simplify_eq/=; try done.
  apply Forall_app. split; [done|]. by apply Forall_replicate.
Qed.

Lemma simple_body_items code jt debug (s : state) :
  wf s → Forall (item_ok code) (stdout s) →
  Forall (item_ok code) (stdout (Simple.body code jt debug s).2).
Proof.
  intros Hwf Hout. unfold Simple.body. cbv [bind get_ip].
  destruct (code !! ip s) as [c|] eqn:Hc; [|done].
  pose proof (simple_dispatch_items code jt c s Hwf Hout) as Hd.
  pose proof (simple_dispatch_wf jt c s Hwf) as Hwf1.
  pose proof (simple_dispatch_ip jt c s) as Hip.
  destruct (Simple.dispatch jt c s) as [[e|[|]] s1]; simpl in *; [done..|].
  destruct (getitem_wf _ _ Hwf1) as (v & Hg & _ & Hv).
  destruct debug; exec; rewrite ?Hg; simpl; [|done].
  apply Forall_app. split; [done|]. apply Forall_singleton. simpl.
  rewrite Hip by done. split; [done|]. split; [apply Hwf1|done].
Qed.

Lemma batch_body_items (ops : list (ascii * Z)) jt debug (s : state) :
  wf s → Forall (item_ok ops.*1) (stdout s) →
  Forall (item_ok ops.*1) (stdout (Batch.body ops jt debug s).2).
Proof.
  intros Hwf Hout. unfold Batch.body. cbv [bind get_ip].
  destruct (ops !! ip s) as [[c n]|] eqn:Hc; [|done].
  pose proof (batch_dispatch_items ops.*1 jt c n s Hwf Hout) as Hd.
  pose proof (batch_dispatch_wf jt c n s Hwf) as Hwf1.
  pose proof (batch_dispatch_ip jt c n s) as Hip.
  destruct (Batch.dispatch jt c n s) as [[e|[|]] s1]; simpl in *; [done..|].
  destruct (getitem_wf _ _ Hwf1) as (v & Hg & _ & Hv).
  destruct debug; exec; rewrite ?Hg; simpl; [|done].
  apply Forall_app. split; [done|]. apply Forall_singleton. simpl.
  rewrite Hip, list_lookup_fmap, Hc by done.
  split; [done|]. split; [apply Hwf1|done].
Qed.

Lemma simple_loop_items code jt debug fuel (s : state) :
  wf s → Forall (item_ok code) (stdout s) →
  Forall (item_ok code) (stdout (Simple.loop code jt debug fuel s).2).
Proof.
  revert s. induction fuel as [|fuel IH]; intros s Hwf Hout; simpl.
  - by destruct (ip s <? length code)%nat.
  - destruct (ip s <? length code)%nat; [|done].
    pose proof (simple_body_items code jt debug s Hwf Hout) as H.
    pose proof (simple_body_wf code jt debug s Hwf) as Hwf1.
    destruct (Simple.body code jt debug s) as [[e|[]] s1]; [done|by apply IH].
Qed.

Lemma batch_loop_items (ops : list (ascii * Z)) jt debug fuel (s : state) :
  wf s → Forall (item_ok ops.*1) (stdout s) →
  Forall (item_ok ops.*1) (stdout (Batch.loop ops jt debug fuel s).2).
Proof.
  revert s. induction fuel as [|fuel IH]; intros s Hwf Hout; simpl.
  - by destruct (ip s <? length ops)%nat.
  - destruct (ip s <? length ops)%nat; [|done].
    pose proof (batch_body_items ops jt debug s Hwf Hout) as H.
    pose proof (batch_body_wf ops jt debug s Hwf) as Hwf1.
    destruct (Batch.body ops jt debug s) as [[e|[]] s1]; [done|by apply IH].
Qed.

End Output.

(** ** Loops *)

Section Loops.
Local Open Scope nat_scope.

Lemma depth_none_app (l1 l2 : list ascii) (d : nat) :
  depth l1 d = None → depth (l1 ++ l2) d = None.
Proof. intros H. by rewrite depth_app, H. Qed.

(** A [[[]] has one partner. *)
Lemma matching_unique (code : list ascii) (i j j' : nat) :
  matching code i j → matching code i j' → j = j'.
Proof.
  assert (∀ j j', j < j' → matching code i j → matching code i j' → False) as H.
  { clear j j'. intros j j' Hlt (Hij & _ & Hj & Hd) (_ & _ & Hj' & Hd').
    assert (drop (S i) (take j' code) =
            drop (S i) (take j code) ++ "]"%char :: drop (S j) (take j' code)) as E.
    { rewrite <- (take_drop (S j) (take j' code)) at 1.
      rewrite take_take, Nat.min_l by lia.
      rewrite drop_app_le by (rewrite length_take; apply lookup_lt_Some in Hj; lia).
      rewrite (take_S_r _ _ _ Hj).
      rewrite drop_app_le by (rewrite length_take; apply lookup_lt_Some in Hj; lia).
      by rewrite <- app_assoc. }
    rewrite E, depth_app, Hd in Hd'. done. }
  intros Hm Hm'. destruct (Nat.lt_trichotomy j j') as [Hlt|[?|Hlt]]; [|done|].
  - destruct (H j j' Hlt Hm Hm').
  - destruct (H j' j Hlt Hm' Hm).
Qed.

(** The table holds the partners, and nothing else. *)
Lemma build_jump_table_partners (code : list ascii) (table : gmap nat nat)
    (i j : nat) :
  Simple.build_jump_table code = inr table →
  matching code i j ↔ i < j ∧ table !! i = Some j ∧ table !! j = Some i.
Proof.
  intros H. pose proof (build_jump_table_matching code table H) as Hm.
  pose proof (build_jump_table_spec code) as Hs. rewrite H in Hs.
  destruct Hs as (_ & Hsym & Hdom). split.
  - intros Hij. pose proof Hij as (Hlt & Hi & Hj & _). split; [done|].
    destruct (proj2 (Hdom i) ltac:(by left)) as [j' Hj'].
    destruct (Hm i j' Hj') as [Hm'|(_ & _ & Hc & _)]; [|congruence].
    rewrite (matching_unique code i j j' Hij Hm'). split; [done|by apply Hsym].
  - intros (Hlt & Hi & _). destruct (Hm i j Hi) as [?|(? & _)]; [done|lia].
Qed.






End Loops.

(** ** Further properties of the three files *)

Section Further.

(** X1. The jump table is the pairing of the brackets: it joins [i] and
    [j], in both directions, exactly when [i] holds a [[[]], [j] a later
    [[]]], and the code between them is balanced; in the three files. *)
Theorem jump_table_pairs_partners :
  (∀ (code : list ascii) (table : gmap nat nat) (i j : nat),
     Simple.build_jump_table code = inr table →
     matching code i j ↔
     (i < j)%nat ∧ table !! i = Some j ∧ table !! j = Some i) ∧
  (∀ (ops : list (ascii * Z)) (table : gmap nat nat) (i j : nat),
     Batch.build_jump_table ops = inr table →
     matching ops.*1 i j ↔
     (i < j)%nat ∧ table !! i = Some j ∧ table !! j = Some i) ∧
  (∀ (code : list ascii) (table : gmap nat nat) (i j : nat),
     Main.build_jump_table code = inr table →
     matching code i j ↔
     (i < j)%nat ∧ table !! i = Some j ∧ table !! j = Some i).
Proof.
  split; [|split].
  - intros code table i j H. by apply build_jump_table_partners.
  - intros ops table i j H. rewrite batch_build_jump_table_fst in H.
    by apply build_jump_table_partners.
  - intros code table i j H. rewrite main_build_jump_table_simple in H.
    by apply build_jump_table_partners.
Qed.

Lemma jump_table_pairs_partners_witness :
  ∃ table : gmap nat nat,
    Simple.build_jump_table (str "[-[+]>[]]") = inr table ∧
    (matching (str "[-[+]>[]]") 2 4 ↔
     (2 < 4)%nat ∧ table !! 2%nat = Some 4%nat ∧ table !! 4%nat = Some 2%nat).
Proof.
  destruct (Simple.build_jump_table (str "[-[+]>[]]")) as [e|table] eqn:E.
  - vm_compute in E. discriminate E.
  - exists table. split; [reflexivity|].
    exact (proj1 jump_table_pairs_partners (str "[-[+]>[]]") table 2%nat 4%nat E).
Defined.

(** X2. How [run] of [01_simple.py] ends.  An unbalanced program raises
    the syntax error of [build_jump_table], in the initial state, and does
    nothing else.  A balanced program ends at the end of the code, or at a
    [,]: with [EOFError] when no input line is left; with [IndexError]
    when the line it takes is empty; with [OverflowError] when the first
    character of the line it takes has a code above 255.  The line taken
    is the line of the input before the lines that are left.  Until then
    the instruction pointer is inside the code.  [run] raises nothing
    else: no [KeyError] on the jump table and no index outside the tape.
    The program "," shows the three failures, on no line, on an empty line
    and on a line that starts with the character of code 300. *)
Theorem simple_run_ends :
  (∀ (debug : bool) (code : list ascii) (lines : list (list char))
     (fuel : nat),
     match Simple.run debug code lines fuel with
     | (Finished, s) => balanced code = true ∧ ip s = length code
     | (OutOfFuel, s) => balanced code = true ∧ (ip s < length code)%nat
     | (Raised e, s) =>
         (is_syntax_error e = true ∧ balanced code = false ∧
          s = initial lines) ∨
         (balanced code = true ∧ code !! ip s = Some ","%char ∧
          ((e = EOFError ∧ stdin s = []) ∨
           (e = IndexError ∧
            ∃ before : list (list char), lines = before ++ [] :: stdin s) ∨
           (e = OverflowError ∧
            ∃ (before : list (list char)) (c : char) (rest : list char),
              lines = before ++ (c :: rest) :: stdin s ∧ 256 <= ord c)))
     end) ∧
  (Simple.run false (str ",") [] 1).1 = Raised EOFError ∧
  (Simple.run false (str ",") [[]; line "A"] 1).1 = Raised IndexError ∧
  stdin (Simple.run false (str ",") [[]; line "A"] 1).2 = [line "A"] ∧
  (Simple.run false (str ",") [[300%N]; line "A"] 1).1 = Raised OverflowError ∧
  stdin (Simple.run false (str ",") [[300%N]; line "A"] 1).2 = [line "A"] ∧
  tape (Simple.run false (str ",") [[300%N]; line "A"] 1).2 !! 0%nat = Some 0.
Proof.
  split; [|by vm_compute].
  intros debug code lines fuel.
  pose proof (simple_run_safe debug code lines fuel) as H.
  destruct (Simple.run debug code lines fuel) as [[|e|] s]; [done| |done].
  destruct H as [H|(Hb & Hc & H)]; [by left|by right].
Qed.

(** X3. How [run] of [02_batch.py] ends on the instructions of
    [parse_code]: as [run] of [01_simple.py] does, or, besides, with
    [OverflowError] at a [+] or a [-] whose count is above 255; so without
    [RuntimeError] and without [KeyError].  The text of 256 [+] shows that
    last failure. *)
Theorem batch_run_ends :
  (∀ (debug : bool) (raw : list ascii) (lines : list (list char))
     (fuel : nat),
     let ops := Batch.parse_code raw in
     match Batch.run debug ops lines fuel with
     | (Finished, s) => balanced ops.*1 = true ∧ ip s = length ops
     | (OutOfFuel, s) => balanced ops.*1 = true ∧ (ip s < length ops)%nat
     | (Raised e, s) =>
         (is_syntax_error e = true ∧ balanced ops.*1 = false ∧
          s = initial lines) ∨
         (balanced ops.*1 = true ∧ ops.*1 !! ip s = Some ","%char ∧
          ((e = EOFError ∧ stdin s = []) ∨
           (e = IndexError ∧
            ∃ before : list (list char), lines = before ++ [] :: stdin s) ∨
           (e = OverflowError ∧
            ∃ (before : list (list char)) (c : char) (rest : list char),
              lines = before ++ (c :: rest) :: stdin s ∧ 256 <= ord c))) ∨
         (balanced ops.*1 = true ∧ e = OverflowError ∧
          ∃ (c : ascii) (n : Z),
            ops !! ip s = Some (c, n) ∧ (c = "+"%char ∨ c = "-"%char) ∧
            256 <= n)
     end) ∧
  (Batch.run false (Batch.parse_code (replicate 256 "+"%char)) [] 1).1
    = Raised OverflowError ∧
  ip (Batch.run false (Batch.parse_code (replicate 256 "+"%char)) [] 1).2
    = 0%nat ∧
  (Batch.run false (Batch.parse_code (replicate 255 "+"%char)) [] 1).1
    = Finished.
Proof.
  split; [|by vm_compute].
  intros debug raw lines fuel ops.
  pose proof (batch_run_safe debug ops lines fuel (parse_code_valid raw)) as H.
  destruct (parse_code_expand raw) as [_ Hn]. fold ops in Hn.
  destruct (Batch.run debug ops lines fuel) as [[|e|] s]; [done| |done].
  destruct H as [H|(Hb & [[Hc H]|(-> & [c n] & Hop & Hfit)])];
    [by left|right; by left|right; right].
  split; [done|]. split; [done|]. exists c, n. split; [done|].
  pose proof (Forall_lookup_1 _ _ _ _ Hn Hop) as H1. simpl in H1.
  apply count_fits_false; [lia|done].
Qed.

(** X4. The encoder loses nothing: writing every instruction [(op, n)] of
    [parse_code] of [02_batch.py] as [n] times [op] gives the text that
    [parse_code] of [01_simple.py] keeps; every count is at least 1, and
    there are no more instructions than characters. *)
Theorem encoder_round_trip :
  ∀ raw : list ascii,
    expand (Batch.parse_code raw) = Simple.parse_code raw ∧
    Forall (fun op => 1 <= op.2) (Batch.parse_code raw) ∧
    (length (Batch.parse_code raw) ≤ length (Simple.parse_code raw))%nat.
Proof.
  intros raw. destruct (parse_code_expand raw) as [He Hn].
  split; [done|]. split; [done|]. rewrite <- He. by apply expand_length_le.
Qed.

(** X5. The runs of the encoder are maximal: two neighbours in the result
    of [parse_code] of [02_batch.py] never have the same operator. *)
Theorem encoder_runs_are_maximal :
  ∀ raw : list ascii, distinct_neighbours (Batch.parse_code raw) = true.
Proof. apply parse_code_distinct. Qed.

(** X6. The encoder reads the operators only: the other characters of the
    text change nothing, and the result is empty exactly when the text has
    no operator. *)
Theorem encoder_ignores_other_characters :
  ∀ raw : list ascii,
    Batch.parse_code (Simple.parse_code raw) = Batch.parse_code raw ∧
    (Batch.parse_code raw = [] ↔ Simple.parse_code raw = []).
Proof.
  intros raw. split; [apply parse_code_filter|]. split.
  - intros H. destruct (parse_code_expand raw) as [<- _]. by rewrite H.
  - intros H. by rewrite <- parse_code_filter, H.
Qed.

(** X7. [parse_code] of [01_simple.py] and of [main.py]: the result is a
    subsequence of the text, made of operators only; a text of operators
    is kept as it is, so parsing twice is parsing once. *)
Theorem source_filter_keeps_operators :
  ∀ raw : list ascii,
    Simple.parse_code raw `sublist_of` raw ∧
    Forall (fun c => is_operator c = true) (Simple.parse_code raw) ∧
    Simple.parse_code (Simple.parse_code raw) = Simple.parse_code raw ∧
    (forallb is_operator raw = true ↔ Simple.parse_code raw = raw) ∧
    Main.parse_code raw = Simple.parse_code raw.
Proof.
  intros raw. split; [apply simple_parse_code_sublist|].
  split; [apply simple_parse_code_operators|].
  split; [apply simple_parse_code_id, simple_parse_code_operators|].
  split; [|done]. split.
  - intros H. apply simple_parse_code_id. apply List.Forall_forall.
    by apply forallb_forall.
  - intros H. apply forallb_forall. apply List.Forall_forall.
    rewrite <- H. apply simple_parse_code_operators.
Qed.

(** X8. For the operators [>], [<] and [.] with any count [n >= 0], and
    for [+] and [-] with a count [n] from 0 to 255, the instruction
    [(op, n)] of [02_batch.py] does to a state what [n] times [op] do in
    [01_simple.py]; so [(">", 3)] leaves the pointer where three [>]
    leave it.  A [+] or a [-] with a count above 255 raises
    [OverflowError] and leaves the state as it was. *)
Theorem run_length_instruction_repeats :
  ∀ (jt jt' : gmap nat nat) (c : ascii) (n : Z) (s : state),
    wf s → repeatable c = true → 0 <= n →
    if count_fits (c, n)
    then Batch.dispatch jt c n s =
         (inr false,
          Nat.iter (Z.to_nat n) (fun s => (Simple.dispatch jt' c s).2) s)
    else (c = "+"%char ∨ c = "-"%char) ∧ 256 <= n ∧
         Batch.dispatch jt c n s = (inl OverflowError, s).
Proof.
  intros jt jt' c n s Hwf Hc Hn. destruct (count_fits (c, n)) eqn:Hfit.
  - by apply batch_dispatch_iter.
  - destruct (count_fits_false c n Hn Hfit) as [Hpm H256].
    split; [done|]. split; [done|].
    destruct (batch_count_overflow jt n s Hwf ltac:(lia)) as [Hplus Hminus].
    by destruct Hpm as [-> | ->].
Qed.

Lemma run_length_instruction_repeats_witness :
  wf (initial []) ∧ repeatable "+" = true ∧ 0 <= 255 ∧ 0 <= 256 ∧
  Batch.dispatch ∅ "+" 255 (initial []) =
  (inr false,
   Nat.iter (Z.to_nat 255) (fun s => (Simple.dispatch ∅ "+" s).2) (initial [])) ∧
  Batch.dispatch ∅ "+" 256 (initial []) = (inl OverflowError, initial []).
Proof.
  split; [apply wf_initial|]. split; [reflexivity|]. split; [lia|].
  split; [lia|]. split.
  - apply (run_length_instruction_repeats ∅ ∅ "+" 255 (initial []));
      [apply wf_initial|reflexivity|lia].
  - apply (run_length_instruction_repeats ∅ ∅ "+" 256 (initial []));
      [apply wf_initial|reflexivity|lia].
Defined.

(** X9. [main.py] is the interpreter of [01_simple.py] without debug
    lines: on every text, [main] does what [run] does on the parsed text;
    the default arm of its [match] is never taken. *)
Theorem main_file_agrees_with_simple :
  ∀ (raw : list ascii) (lines : list (list char)) (fuel : nat),
    Main.main raw lines fuel =
      Simple.run false (Simple.parse_code raw) lines fuel ∧
    is_runtime_error (Main.main raw lines fuel).1 = false.
Proof.
  intros raw lines fuel.
  assert (Main.main raw lines fuel =
          Simple.run false (Simple.parse_code raw) lines fuel) as H.
  { unfold Main.main, Simple.run. change (Main.parse_code raw) with (Simple.parse_code raw).
    rewrite main_build_jump_table_simple.
    destruct (Simple.build_jump_table (Simple.parse_code raw)); [done|].
    apply main_loop_simple, simple_parse_code_operators. }
  split; [done|]. rewrite H.
  pose proof (simple_run_safe false (Simple.parse_code raw) lines fuel) as Hs.
  destruct (Simple.run false (Simple.parse_code raw) lines fuel) as [[|e|] s];
    [done| |done].
  destruct Hs as [[He _]|(_ & _ & [[-> _]|[[-> _]|[-> _]]])];
    [by destruct e|done..].
Qed.

(** X10. Where the encoder gives every bracket and every [,] the count 1
    (no two equal brackets and no two [,] follow each other in the text)
    and every [+] and [-] a count of at most 255, the two modes agree: for
    every run of [02_batch.py] on the encoded program there is a run of
    [01_simple.py] on the text, with at least as many iterations, that has
    the same outcome, output, remaining input, tape and pointer; and a run
    of [01_simple.py] that ends is matched by the run of [02_batch.py]
    with the same fuel. *)
Theorem run_length_mode_agrees :
  ∀ (raw : list ascii) (lines : list (list char)) (fuel : nat),
    plain (Batch.parse_code raw) = true →
    forallb count_fits (Batch.parse_code raw) = true →
    let ops := Batch.parse_code raw in
    let encoded := Batch.run false ops lines fuel in
    (∃ fuel' : nat, (fuel ≤ fuel')%nat ∧
       same_run ops (Simple.run false (Simple.parse_code raw) lines fuel')
         encoded) ∧
    ((Simple.run false (Simple.parse_code raw) lines fuel).1 ≠ OutOfFuel →
     same_run ops (Simple.run false (Simple.parse_code raw) lines fuel)
       encoded).
Proof.
  intros raw lines fuel Hp Hfits ops encoded.
  destruct (run_in_text ops lines fuel Hp Hfits) as (fuel' & Hle & Hr).
  destruct (parse_code_expand raw) as [He _]. fold ops in He. rewrite He in Hr.
  assert (same_run ops (Simple.run false (Simple.parse_code raw) lines fuel')
            encoded) as Hsame.
  { rewrite Hr. by repeat split. }
  split; [by exists fuel'|]. intros Hend.
  replace fuel' with (fuel + (fuel' - fuel))%nat in Hsame by lia.
  by rewrite simple_run_fuel in Hsame.
Qed.

Lemma run_length_mode_agrees_witness :
  plain (Batch.parse_code (str "++>+++++[<+>-]<.")) = true ∧
  forallb count_fits (Batch.parse_code (str "++>+++++[<+>-]<.")) = true ∧
  (Batch.run false (Batch.parse_code (str "++>+++++[<+>-]<.")) [] 40).1
    = Finished ∧
  (Simple.run false (Simple.parse_code (str "++>+++++[<+>-]<.")) [] 40).1
    = Finished ∧
  same_run (Batch.parse_code (str "++>+++++[<+>-]<."))
    (Simple.run false (Simple.parse_code (str "++>+++++[<+>-]<.")) [] 40)
    (Batch.run false (Batch.parse_code (str "++>+++++[<+>-]<.")) [] 40).
Proof.
  split; [reflexivity|]. split; [reflexivity|].
  split; [by vm_compute|]. split; [by vm_compute|].
  apply (run_length_mode_agrees (str "++>+++++[<+>-]<.") [] 40%nat);
    [reflexivity|reflexivity|].
  vm_compute. discriminate.
Defined.

(** X11. A longer run only goes on: what a run has written stays at the
    front of what a run with more fuel writes, and the input left by the
    longer run is the end of the input left by the shorter one, which is
    the end of the input given. *)
Theorem longer_run_extends_io :
  ∀ (debug : bool) (lines : list (list char)) (fuel extra : nat),
    (∀ code : list ascii,
       io_extends (Simple.run debug code lines fuel).2
         (Simple.run debug code lines (fuel + extra)).2 ∧
       stdin (Simple.run debug code lines fuel).2 `suffix_of` lines) ∧
    (∀ ops : list (ascii * Z),
       io_extends (Batch.run debug ops lines fuel).2
         (Batch.run debug ops lines (fuel + extra)).2 ∧
       stdin (Batch.run debug ops lines fuel).2 `suffix_of` lines).
Proof.
  intros debug lines fuel extra. split.
  - intros code. unfold Simple.run.
    destruct (Simple.build_jump_table code) as [e|jt]; [by split|].
    split; [|apply (simple_loop_io code jt debug fuel (initial lines))].
    rewrite simple_loop_add.
    destruct (Simple.loop code jt debug fuel (initial lines)) as [[|e|] s];
      simpl; [apply io_extends_refl..|apply simple_loop_io].
  - intros ops. unfold Batch.run.
    destruct (Batch.build_jump_table ops) as [e|jt]; [by split|].
    split; [|apply (batch_loop_io ops jt debug fuel (initial lines))].
    rewrite batch_loop_add.
    destruct (Batch.loop ops jt debug fuel (initial lines)) as [[|e|] s];
      simpl; [apply io_extends_refl..|apply batch_loop_io].
Qed.

(** X12. What a run writes: every character has a code in [0, 256), and
    every debug line names an instruction index together with the operator
    at that index, a tape index in [0, tape_length) and a cell value in
    [0, 256). *)
Theorem output_items_are_well_formed :
  ∀ (debug : bool) (lines : list (list char)) (fuel : nat),
    (∀ code : list ascii,
       Forall (item_ok code) (stdout (Simple.run debug code lines fuel).2)) ∧
    (∀ ops : list (ascii * Z),
       Forall (item_ok ops.*1) (stdout (Batch.run debug ops lines fuel).2)).
Proof.
  intros debug lines fuel. split.
  - intros code. unfold Simple.run.
    destruct (Simple.build_jump_table code) as [e|jt]; [by constructor|].
    apply simple_loop_items; [apply wf_initial|by constructor].
  - intros ops. unfold Batch.run.
    destruct (Batch.build_jump_table ops) as [e|jt]; [by constructor|].
    apply batch_loop_items; [apply wf_initial|by constructor].
Qed.



(** X14. The statement [,] of [01_simple.py] (and of [main.py]): with no
    line left it raises [EOFError] and changes nothing; on an empty line it
    raises [IndexError], and the line is taken; on a line whose first
    character has a code below 256 it takes the line, stores that code in
    the cell under the pointer, and drops the rest of the line; on a line
    whose first character has a larger code it raises [OverflowError], the
    line is taken and the tape is as it was. *)
Theorem comma_takes_first_character :
  ∀ (jt : gmap nat nat) (s : state),
    (stdin s = [] → Simple.dispatch jt "," s = (inl EOFError, s)) ∧
    (∀ rest : list (list char), stdin s = [] :: rest →
       Simple.dispatch jt "," s =
       (inl IndexError,
        {| ip := ip s; ptr := ptr s; tape := tape s;
           stdin := rest; stdout := stdout s |})) ∧
    (∀ (c : char) (line : list char) (rest : list (list char)),
       wf s → stdin s = (c :: line) :: rest → ord c < 256 →
       Simple.dispatch jt "," s =
       (inr false,
        {| ip := ip s; ptr := ptr s;
           tape := <[Z.to_nat (ptr s) := ord c]> (tape s);
           stdin := rest; stdout := stdout s |})) ∧
    (∀ (c : char) (line : list char) (rest : list (list char)),
       stdin s = (c :: line) :: rest → 256 <= ord c →
       Simple.dispatch jt "," s =
       (inl OverflowError,
        {| ip := ip s; ptr := ptr s; tape := tape s;
           stdin := rest; stdout := stdout s |})) ∧
    Main.dispatch jt "," s = Simple.dispatch jt "," s.
Proof.
  intros jt s. split_and!.
  - intros H. unfold Simple.dispatch. simpl. exec. by rewrite H.
  - intros rest H. unfold Simple.dispatch. simpl. exec. by rewrite H.
  - intros c line rest Hwf H Hc. by apply (simple_comma jt s c line rest).
  - intros c line rest H Hc. unfold Simple.dispatch. simpl.
    unfold bind at 1, input. rewrite H. unfold bind at 1, first_char, ret.
    unfold bind at 1. cbn [stdin ip ptr tape stdout].
    by rewrite np_uint8_overflow by lia.
  - done.
Qed.

Lemma comma_takes_first_character_witness :
  wf (initial [line "AB"]) ∧
  stdin (initial [line "AB"]) = (char_of_ascii "A" :: line "B") :: [] ∧
  ord (char_of_ascii "A") < 256 ∧
  Simple.dispatch ∅ "," (initial [line "AB"]) =
  (inr false,
   {| ip := 0; ptr := 0; tape := <[Z.to_nat 0 := ord "A"]> zeros;
      stdin := []; stdout := [] |}).
Proof.
  split; [apply wf_initial|]. split; [reflexivity|]. split; [reflexivity|].
  apply (proj1 (proj2 (proj2 (comma_takes_first_character ∅ (initial [line "AB"]))))
           (char_of_ascii "A") (line "B") []);
    [apply wf_initial|reflexivity|reflexivity].
Defined.

End Further.
